(** * Analytics core of the credit-risk dashboard

    A shallow embedding of the data pipeline of
    [src/lib/synthetic-data.ts] and [src/lib/data-utils.ts] (both kept in
    [src/src/components/ui/navigation.tsx]): the record model, feature
    derivation, income bracketing, filtering, KPI aggregation, histogram
    binning, the statistics helpers and the synthetic generator.

    Raw numeric fields of a record are finite JavaScript numbers, modelled
    as [Q]. Values that JavaScript arithmetic can turn into [NaN] or an
    infinity (divisions by a field, derived ratios, statistics) are
    modelled by [num]. The statistics helpers, feature derivation, histogram
    binning and correlation compute with [f_add], [f_sub], [f_mul], [f_div]
    and [Math_sqrt], JavaScript's binary64 operations: the exact result
    rounded to the nearest double, ties to even, beyond the largest double
    an infinity. Elsewhere finite arithmetic is exact; the comparator
    [a - b] of a sort is exact in sign on doubles, rounded or not, and the
    generator's arithmetic on reals ends in [Math.round]. *)

From Stdlib Require Import QArith Qround Qabs Qminmax Qpower.
From Stdlib Require Import String.
From Stdlib Require Import List Bool Arith Lia ZArith.
From Stdlib Require Import Sorting.Permutation Sorting.Sorted.
From Stdlib Require Import Reals Qreals Lra.
From Stdlib Require Lqa.
Import ListNotations.

Open Scope Q_scope.

(** ** JavaScript numbers *)

Inductive num : Type :=
| Fin (q : Q)
| NaN
| PInf
| NInf.

Definition inf_of (pos : bool) : num := if pos then PInf else NInf.

Definition num_neg (a : num) : num :=
  match a with
  | Fin x => Fin (- x)
  | NaN => NaN
  | PInf => NInf
  | NInf => PInf
  end.

Definition num_add (a b : num) : num :=
  match a, b with
  | Fin x, Fin y => Fin (x + y)
  | NaN, _ => NaN
  | _, NaN => NaN
  | PInf, NInf => NaN
  | NInf, PInf => NaN
  | PInf, _ => PInf
  | _, PInf => PInf
  | NInf, _ => NInf
  | _, NInf => NInf
  end.

Definition num_sub (a b : num) : num := num_add a (num_neg b).

(** [Some true] for a positive value, [Some false] for a negative one,
    [None] for zero and NaN. *)
Definition num_sign (a : num) : option bool :=
  match a with
  | Fin x => if Qeq_bool x 0 then None else Some (negb (Qle_bool x 0))
  | NaN => None
  | PInf => Some true
  | NInf => Some false
  end.

Definition num_mul (a b : num) : num :=
  match a, b with
  | Fin x, Fin y => Fin (x * y)
  | NaN, _ => NaN
  | _, NaN => NaN
  | _, _ =>
      match num_sign a, num_sign b with
      | Some sa, Some sb => inf_of (Bool.eqb sa sb)
      | _, _ => NaN
      end
  end.

(** Signed zero is not modelled: a division by zero takes the sign of the
    dividend. *)
Definition num_div (a b : num) : num :=
  match a, b with
  | Fin x, Fin y =>
      if Qeq_bool y 0 then
        match num_sign a with Some s => inf_of s | None => NaN end
      else Fin (x / y)
  | NaN, _ => NaN
  | _, NaN => NaN
  | Fin _, _ => Fin 0
  | _, Fin y =>
      match num_sign a, num_sign b with
      | Some sa, Some sb => inf_of (Bool.eqb sa sb)
      | Some sa, None => inf_of sa
      | None, _ => NaN
      end
  | _, _ => NaN
  end.

(** The relational operators: every comparison with NaN is false. *)
Definition num_cmp (a b : num) : option comparison :=
  match a, b with
  | NaN, _ => None
  | _, NaN => None
  | Fin x, Fin y => Some (Qcompare x y)
  | PInf, PInf => Some Eq
  | NInf, NInf => Some Eq
  | PInf, _ => Some Gt
  | _, PInf => Some Lt
  | NInf, _ => Some Lt
  | _, NInf => Some Gt
  end.

Definition js_lt (a b : num) : bool :=
  match num_cmp a b with Some Lt => true | _ => false end.
Definition js_le (a b : num) : bool :=
  match num_cmp a b with Some Lt | Some Eq => true | _ => false end.
Definition js_gt (a b : num) : bool := js_lt b a.
Definition js_ge (a b : num) : bool := js_le b a.

(** Truthiness: [0] and [NaN] are falsy. *)
Definition truthy (a : num) : bool :=
  match a with
  | Fin x => negb (Qeq_bool x 0)
  | NaN => false
  | _ => true
  end.

(** A field of optional number type: [undefined] is falsy. *)
Definition truthy_opt (a : option num) : bool :=
  match a with Some x => truthy x | None => false end.

Definition Math_floor (a : num) : num :=
  match a with Fin x => Fin (inject_Z (Qfloor x)) | _ => a end.

(** [Math.round] rounds halves towards positive infinity. *)
Definition Math_round (a : num) : num :=
  match a with Fin x => Fin (inject_Z (Qfloor (x + (1 # 2)))) | _ => a end.

Definition Math_min2 (a b : num) : num :=
  match a, b with
  | NaN, _ => NaN
  | _, NaN => NaN
  | _, _ => if js_lt b a then b else a
  end.

Definition Math_max2 (a b : num) : num :=
  match a, b with
  | NaN, _ => NaN
  | _, NaN => NaN
  | _, _ => if js_lt a b then b else a
  end.

(** [Number(x.toFixed(d))]: the nearest multiple of [10^-d], halves away
    from zero; from [1e21] on, [toFixed] prints the number itself. *)
Definition toFixed (d : nat) (a : num) : num :=
  match a with
  | Fin x =>
      if Qle_bool (inject_Z (10 ^ 21)) (Qabs x) then Fin x
      else
        let m := inject_Z (10 ^ Z.of_nat d) in
        let n := if Qle_bool 0 x then Qfloor (x * m + (1 # 2))
                 else (- Qfloor (- x * m + (1 # 2)))%Z in
        Fin (inject_Z n / m)
  | _ => a
  end.

(** A read [xs[i]] used in arithmetic: [undefined] converts to NaN. *)
Definition js_at (xs : list num) (i : Z) : num :=
  if (i <? 0)%Z then NaN
  else match nth_error xs (Z.to_nat i) with Some v => v | None => NaN end.

(** [Array.prototype.sort] with comparator [(a, b) => a - b]: an element
    moves before another only when the comparator is positive. On values
    without NaN this is the ascending order. *)
Fixpoint js_insert (x : num) (l : list num) : list num :=
  match l with
  | [] => [x]
  | y :: ys => if js_lt (Fin 0) (num_sub y x) then x :: l else y :: js_insert x ys
  end.

Fixpoint js_sort (l : list num) : list num :=
  match l with
  | [] => []
  | x :: xs => js_insert x (js_sort xs)
  end.

Definition num_of_nat (n : nat) : num := Fin (inject_Z (Z.of_nat n)).

(** ** Binary64 arithmetic *)

Definition pow2 (z : Z) : Q := Qpower (2 # 1) z.

(** [floor (log2 a)] for [a > 0]. *)
Definition Qlog2_floor (a : Q) : Z :=
  let k := (Z.log2 (Qnum a) - Z.log2 (Zpos (Qden a)))%Z in
  if Qle_bool (pow2 k) a then k else (k - 1)%Z.

(** The integer nearest to [x], ties to the even one. *)
Definition round_half_even (x : Q) : Z :=
  let m0 := Qfloor x in
  let r := x - inject_Z m0 in
  if Qeq_bool r (1 # 2) then (if Z.even m0 then m0 else m0 + 1)%Z
  else if Qle_bool r (1 # 2) then m0 else (m0 + 1)%Z.

(** The double nearest to [q]: a 53-bit significand [m] scaled by [2 ^ e],
    [e] at least [-1074] (subnormals); from [2 ^ 1024] on, an infinity.
    Signed zero is not modelled. *)
Definition round64 (q : Q) : num :=
  if Qeq_bool q 0 then Fin 0 else
  let a := Qabs q in
  let e := Z.max (Qlog2_floor a - 52) (-1074) in
  let v := Qred (inject_Z (round_half_even (a / pow2 e)) * pow2 e) in
  if Qle_bool (pow2 1024) v then inf_of (Qle_bool 0 q)
  else Fin (if Qle_bool 0 q then v else Qred (- v)).

Definition js_round (a : num) : num := match a with Fin q => round64 q | _ => a end.

(** [a + b], [a - b], [a * b] and [a / b] on doubles. *)
Definition f_add (a b : num) : num := js_round (num_add a b).
Definition f_sub (a b : num) : num := js_round (num_sub a b).
Definition f_mul (a b : num) : num := js_round (num_mul a b).
Definition f_div (a b : num) : num := js_round (num_div a b).

(** The double nearest to [sqrt q] for a double [q > 0]: [x = q / 2 ^ (2e)]
    lies in [[2 ^ 104, 2 ^ 106)], so [sqrt x] has 53 bits before the point;
    [Z.sqrt (floor x)] is its integer part, rounded up when
    [sqrt x >= m0 + 1/2], that is [4x >= (2 m0 + 1) ^ 2]. *)
Definition sqrt_pos (q : Q) : num :=
  let e := (Z.div (Qlog2_floor q) 2 - 52)%Z in
  let x := q / pow2 (2 * e) in
  let m0 := Z.sqrt (Qfloor x) in
  let m := match Qcompare (4 * x) (inject_Z ((2 * m0 + 1) ^ 2)) with
           | Lt => m0
           | Gt => (m0 + 1)%Z
           | Eq => if Z.even m0 then m0 else (m0 + 1)%Z
           end in
  round64 (inject_Z m * pow2 e).

(** [Math.sqrt]: NaN below zero. *)
Definition Math_sqrt (a : num) : num :=
  match a with
  | Fin d => if Qeq_bool d 0 then Fin 0 else if Qle_bool 0 d then sqrt_pos d else NaN
  | NaN => NaN
  | PInf => PInf
  | NInf => NaN
  end.

(** ** Statistics helpers: [mean] and [median]. [None] is [null]. *)

Definition mean (values : list num) : option num :=
  match values with
  | [] => None
  | _ => Some (f_div (fold_left f_add values (Fin 0)) (num_of_nat (length values)))
  end.

(** [sorted[mid]] in the odd branch is returned as it is read: an
    out-of-range read would be [undefined], also [None] here. *)
Definition median (values : list num) : option num :=
  match values with
  | [] => None
  | _ =>
      let sorted := js_sort values in
      let mid := Nat.div (length sorted) 2 in
      if Nat.eqb (Nat.modulo (length sorted) 2) 0
      then Some (f_div (f_add (js_at sorted (Z.of_nat mid - 1)) (js_at sorted (Z.of_nat mid))) (Fin 2))
      else nth_error sorted mid
  end.

(** ** Record model: [HomeCreditRecord] *)

Inductive target : Type := T0 | T1.

Definition target_num (t : target) : Q := match t with T0 => 0 | T1 => 1 end.

Inductive bracket : Type := Low | Mid | High.

Record HomeCreditRecord : Type := mkRecord {
  SK_ID_CURR : Q;
  TARGET : target;
  CODE_GENDER : string;
  DAYS_BIRTH : Q;
  DAYS_EMPLOYED : Q;
  NAME_FAMILY_STATUS : string;
  CNT_CHILDREN : Q;
  CNT_FAM_MEMBERS : Q;
  NAME_EDUCATION_TYPE : string;
  OCCUPATION_TYPE : string;
  NAME_HOUSING_TYPE : string;
  AMT_INCOME_TOTAL : Q;
  AMT_CREDIT : Q;
  AMT_ANNUITY : Q;
  AMT_GOODS_PRICE : Q;
  NAME_CONTRACT_TYPE : string;
  REGION_RATING_CLIENT : Q;
  FLAG_OWN_CAR : string;
  FLAG_OWN_REALTY : string;
  (* derived fields, absent until preprocessing *)
  AGE_YEARS : option num;
  EMPLOYMENT_YEARS : option num;
  DTI : option num;
  LOAN_TO_INCOME : option num;
  ANNUITY_TO_CREDIT : option num;
  INCOME_BRACKET : option bracket
}.

(** [{ ...record, AGE_YEARS, EMPLOYMENT_YEARS, DTI, LOAN_TO_INCOME,
    ANNUITY_TO_CREDIT }] *)
Definition set_derived (r : HomeCreditRecord) (age emp dti lti atc : num) : HomeCreditRecord :=
  {| SK_ID_CURR := SK_ID_CURR r; TARGET := TARGET r; CODE_GENDER := CODE_GENDER r;
     DAYS_BIRTH := DAYS_BIRTH r; DAYS_EMPLOYED := DAYS_EMPLOYED r;
     NAME_FAMILY_STATUS := NAME_FAMILY_STATUS r; CNT_CHILDREN := CNT_CHILDREN r;
     CNT_FAM_MEMBERS := CNT_FAM_MEMBERS r; NAME_EDUCATION_TYPE := NAME_EDUCATION_TYPE r;
     OCCUPATION_TYPE := OCCUPATION_TYPE r; NAME_HOUSING_TYPE := NAME_HOUSING_TYPE r;
     AMT_INCOME_TOTAL := AMT_INCOME_TOTAL r; AMT_CREDIT := AMT_CREDIT r;
     AMT_ANNUITY := AMT_ANNUITY r; AMT_GOODS_PRICE := AMT_GOODS_PRICE r;
     NAME_CONTRACT_TYPE := NAME_CONTRACT_TYPE r; REGION_RATING_CLIENT := REGION_RATING_CLIENT r;
     FLAG_OWN_CAR := FLAG_OWN_CAR r; FLAG_OWN_REALTY := FLAG_OWN_REALTY r;
     AGE_YEARS := Some age; EMPLOYMENT_YEARS := Some emp; DTI := Some dti;
     LOAN_TO_INCOME := Some lti; ANNUITY_TO_CREDIT := Some atc;
     INCOME_BRACKET := INCOME_BRACKET r |}.

(** [{ ...record, INCOME_BRACKET }] *)
Definition set_bracket (r : HomeCreditRecord) (b : bracket) : HomeCreditRecord :=
  {| SK_ID_CURR := SK_ID_CURR r; TARGET := TARGET r; CODE_GENDER := CODE_GENDER r;
     DAYS_BIRTH := DAYS_BIRTH r; DAYS_EMPLOYED := DAYS_EMPLOYED r;
     NAME_FAMILY_STATUS := NAME_FAMILY_STATUS r; CNT_CHILDREN := CNT_CHILDREN r;
     CNT_FAM_MEMBERS := CNT_FAM_MEMBERS r; NAME_EDUCATION_TYPE := NAME_EDUCATION_TYPE r;
     OCCUPATION_TYPE := OCCUPATION_TYPE r; NAME_HOUSING_TYPE := NAME_HOUSING_TYPE r;
     AMT_INCOME_TOTAL := AMT_INCOME_TOTAL r; AMT_CREDIT := AMT_CREDIT r;
     AMT_ANNUITY := AMT_ANNUITY r; AMT_GOODS_PRICE := AMT_GOODS_PRICE r;
     NAME_CONTRACT_TYPE := NAME_CONTRACT_TYPE r; REGION_RATING_CLIENT := REGION_RATING_CLIENT r;
     FLAG_OWN_CAR := FLAG_OWN_CAR r; FLAG_OWN_REALTY := FLAG_OWN_REALTY r;
     AGE_YEARS := AGE_YEARS r; EMPLOYMENT_YEARS := EMPLOYMENT_YEARS r; DTI := DTI r;
     LOAN_TO_INCOME := LOAN_TO_INCOME r; ANNUITY_TO_CREDIT := ANNUITY_TO_CREDIT r;
     INCOME_BRACKET := Some b |}.

(** ** Feature derivation: [preprocessData] *)

Definition preprocess_record (record : HomeCreditRecord) : HomeCreditRecord :=
  let ageYears := f_div (Fin (- DAYS_BIRTH record)) (Fin 365.25) in
  let employmentYears :=
    if Qeq_bool (DAYS_EMPLOYED record) 365243 then Fin 0
    else f_div (Fin (- DAYS_EMPLOYED record)) (Fin 365.25) in
  let dti := f_div (Fin (AMT_ANNUITY record)) (Fin (AMT_INCOME_TOTAL record)) in
  let lti := f_div (Fin (AMT_CREDIT record)) (Fin (AMT_INCOME_TOTAL record)) in
  let annuityToCredit := f_div (Fin (AMT_ANNUITY record)) (Fin (AMT_CREDIT record)) in
  set_derived record
    (f_div (Math_round (f_mul ageYears (Fin 10))) (Fin 10))
    (Math_max2 (Fin 0) (f_div (Math_round (f_mul employmentYears (Fin 10))) (Fin 10)))
    (f_div (Math_round (f_mul dti (Fin 1000))) (Fin 1000))
    (f_div (Math_round (f_mul lti (Fin 100))) (Fin 100))
    (f_div (Math_round (f_mul annuityToCredit (Fin 1000))) (Fin 1000)).

Definition preprocessData (records : list HomeCreditRecord) : list HomeCreditRecord :=
  map preprocess_record records.

(** ** Income brackets: [addIncomeBrackets] *)

(** [Math.floor(n * f)] as an array index. *)
Definition quantile_index (n : nat) (f : Q) : nat :=
  Z.to_nat (Qfloor (inject_Z (Z.of_nat n) * f)).

(** [x <= q] and [x >= q] where [q] is [undefined] are false. *)
Definition js_le_opt (x : num) (q : option num) : bool :=
  match q with Some v => js_le x v | None => false end.
Definition js_ge_opt (x : num) (q : option num) : bool :=
  match q with Some v => js_ge x v | None => false end.

Definition bracket_of (q1 q3 : option num) (income : Q) : bracket :=
  if js_le_opt (Fin income) q1 then Low
  else if js_ge_opt (Fin income) q3 then High
  else Mid.

Definition addIncomeBrackets (records : list HomeCreditRecord) : list HomeCreditRecord :=
  let incomes := js_sort (map (fun r => Fin (AMT_INCOME_TOTAL r)) records) in
  let q1 := nth_error incomes (quantile_index (length incomes) 0.25) in
  let q3 := nth_error incomes (quantile_index (length incomes) 0.75) in
  map (fun record => set_bracket record (bracket_of q1 q3 (AMT_INCOME_TOTAL record))) records.

(** ** Filtering: [applyFilters] *)

Record FilterState : Type := mkFilter {
  gender : list string;
  education : list string;
  familyStatus : list string;
  housingType : list string;
  ageRange : Q * Q;
  incomeBracket : string;
  employmentRange : Q * Q
}.

Definition includes (xs : list string) (x : string) : bool :=
  existsb (String.eqb x) xs.

(** [list.length > 0 && !list.includes(value)] excludes the record. *)
Definition category_ok (xs : list string) (x : string) : bool :=
  negb (Nat.ltb 0 (length xs) && negb (includes xs x)).

(** [field && (field < lo || field > hi)] excludes the record. *)
Definition range_ok (field : option num) (range : Q * Q) : bool :=
  negb (truthy_opt field &&
        match field with
        | Some v => js_lt v (Fin (fst range)) || js_gt v (Fin (snd range))
        | None => false
        end).

Definition age_ok (filters : FilterState) (record : HomeCreditRecord) : bool :=
  range_ok (AGE_YEARS record) (ageRange filters).

Definition employment_ok (filters : FilterState) (record : HomeCreditRecord) : bool :=
  range_ok (EMPLOYMENT_YEARS record) (employmentRange filters).

(** [{ low: 'Low', mid: 'Mid', high: 'High' }[key]] *)
Definition bracketMap (key : string) : option bracket :=
  if String.eqb key "low" then Some Low
  else if String.eqb key "mid" then Some Mid
  else if String.eqb key "high" then Some High
  else None.

Definition bracket_eqb (a b : bracket) : bool :=
  match a, b with Low, Low | Mid, Mid | High, High => true | _, _ => false end.

Definition option_bracket_eqb (a b : option bracket) : bool :=
  match a, b with
  | Some x, Some y => bracket_eqb x y
  | None, None => true
  | _, _ => false
  end.

Definition income_bracket_ok (filters : FilterState) (record : HomeCreditRecord) : bool :=
  if String.eqb (incomeBracket filters) "all" then true
  else option_bracket_eqb (INCOME_BRACKET record) (bracketMap (incomeBracket filters)).

(** The callback of [data.filter], its checks in source order. *)
Definition keep (filters : FilterState) (record : HomeCreditRecord) : bool :=
  category_ok (gender filters) (CODE_GENDER record) &&
  category_ok (education filters) (NAME_EDUCATION_TYPE record) &&
  category_ok (familyStatus filters) (NAME_FAMILY_STATUS record) &&
  category_ok (housingType filters) (NAME_HOUSING_TYPE record) &&
  age_ok filters record &&
  income_bracket_ok filters record &&
  employment_ok filters record.

Definition applyFilters (data : list HomeCreditRecord) (filters : FilterState) : list HomeCreditRecord :=
  filter (keep filters) data.

(** ** KPI aggregation: [calculateKPIs] *)

Definition is_default (r : HomeCreditRecord) : bool :=
  match TARGET r with T1 => true | T0 => false end.
Definition is_repaid (r : HomeCreditRecord) : bool := negb (is_default r).

Definition count_where (p : HomeCreditRecord -> bool) (data : list HomeCreditRecord) : nat :=
  length (filter p data).

(** [data.filter(r => r.F).map(r => r.F!)] for an optional numeric field. *)
Definition truthy_values (f : HomeCreditRecord -> option num) (data : list HomeCreditRecord) : list num :=
  flat_map (fun r => match f r with Some v => if truthy v then [v] else [] | None => [] end) data.

(** [data.filter(r => r.F && r.F > 0).map(r => r.F!)] *)
Definition positive_values (f : HomeCreditRecord -> option num) (data : list HomeCreditRecord) : list num :=
  flat_map (fun r => match f r with
                     | Some v => if truthy v && js_gt v (Fin 0) then [v] else []
                     | None => [] end) data.

(** [Object.keys(record).length]: the nineteen raw keys and the derived
    keys the record carries. *)
Definition key_count (r : HomeCreditRecord) : nat :=
  19 + (if AGE_YEARS r then 1 else 0) + (if EMPLOYMENT_YEARS r then 1 else 0)
     + (if DTI r then 1 else 0) + (if LOAN_TO_INCOME r then 1 else 0)
     + (if ANNUITY_TO_CREDIT r then 1 else 0) + (if INCOME_BRACKET r then 1 else 0).

(** [Number(x?.toFixed(d) || 0)] for [x : number | null]. *)
Definition fixed_or_zero (d : nat) (x : option num) : num :=
  match x with Some v => toFixed d v | None => Fin 0 end.

(** [null] in arithmetic converts to [0]. *)
Definition null_to_num (x : option num) : num :=
  match x with Some v => v | None => Fin 0 end.

Definition percentage (k n : nat) : num :=
  toFixed 1 (num_mul (num_div (num_of_nat k) (num_of_nat n)) (Fin 100)).

(** The returned object, as its list of properties in source order. *)
Definition KPIs : Type := list (string * num).

Definition kpi_lookup (key : string) (o : KPIs) : option num :=
  match find (fun kv => String.eqb (fst kv) key) o with
  | Some kv => Some (snd kv)
  | None => None
  end.

Definition calculateKPIs (data : list HomeCreditRecord) : KPIs :=
  match data with
  | [] => []
  | first :: _ =>
  let totalApplicants := length data in
  let totalDefaults := count_where is_default data in
  let defaultRate := num_mul (num_div (num_of_nat totalDefaults) (num_of_nat totalApplicants)) (Fin 100) in
  let repaidRate := num_sub (Fin 100) defaultRate in
  let ages := truthy_values AGE_YEARS data in
  let incomes := map (fun r => Fin (AMT_INCOME_TOTAL r)) data in
  let credits := map (fun r => Fin (AMT_CREDIT r)) data in
  let annuities := filter truthy (map (fun r => Fin (AMT_ANNUITY r)) data) in
  let medianAge := median ages in
  let medianIncome := median incomes in
  let avgCredit := mean credits in
  let avgAnnuity := mean annuities in
  let totalFeatures := key_count first in
  let numericalFeatures := 6%nat in
  let categoricalFeatures := num_sub (num_of_nat totalFeatures) (num_of_nat numericalFeatures) in
  let dtiValues := positive_values DTI data in
  let ltiValues := positive_values LOAN_TO_INCOME data in
  let avgDTI := mean dtiValues in
  let avgLTI := mean ltiValues in
  let maleCount := count_where (fun r => String.eqb (CODE_GENDER r) "M") data in
  let femaleCount := count_where (fun r => String.eqb (CODE_GENDER r) "F") data in
  let withChildrenCount := count_where (fun r => negb (Qle_bool (CNT_CHILDREN r) 0)) data in
  let defaulterIncomes := map (fun r => Fin (AMT_INCOME_TOTAL r)) (filter is_default data) in
  let nonDefaulterIncomes := map (fun r => Fin (AMT_INCOME_TOTAL r)) (filter is_repaid data) in
  let avgIncomeDefaulters := mean defaulterIncomes in
  let avgIncomeNonDefaulters := mean nonDefaulterIncomes in
  [ ("totalApplicants", num_of_nat totalApplicants);
    ("defaultRate", toFixed 2 defaultRate);
    ("repaidRate", toFixed 2 repaidRate);
    ("totalFeatures", num_of_nat totalFeatures);
    ("numericalFeatures", num_of_nat numericalFeatures);
    ("categoricalFeatures", categoricalFeatures);
    ("medianAge", fixed_or_zero 1 medianAge);
    ("medianIncome", fixed_or_zero 0 medianIncome);
    ("avgCredit", fixed_or_zero 0 avgCredit);
    ("totalDefaults", num_of_nat totalDefaults);
    ("avgIncomeDefaulters", fixed_or_zero 0 avgIncomeDefaulters);
    ("avgIncomeNonDefaulters", fixed_or_zero 0 avgIncomeNonDefaulters);
    ("incomeGap", toFixed 0 (num_sub (null_to_num avgIncomeNonDefaulters) (null_to_num avgIncomeDefaulters)));
    ("malePercentage", percentage maleCount totalApplicants);
    ("femalePercentage", percentage femaleCount totalApplicants);
    ("withChildrenPercentage", percentage withChildrenCount totalApplicants);
    ("avgFamilySize", fixed_or_zero 1 (mean (map (fun r => Fin (CNT_FAM_MEMBERS r)) data)));
    ("avgIncome", fixed_or_zero 0 (mean incomes));
    ("avgAnnuity", fixed_or_zero 0 avgAnnuity);
    ("avgDTI", fixed_or_zero 3 avgDTI);
    ("avgLTI", fixed_or_zero 2 avgLTI);
    ("highCreditPercentage",
       percentage (count_where (fun r => negb (Qle_bool (AMT_CREDIT r) 1000000)) data) totalApplicants) ]%string
  end.

(** The metrics the aggregator names. *)
Definition kpi_names : list string :=
  [ "totalApplicants"; "defaultRate"; "repaidRate"; "totalFeatures"; "numericalFeatures";
    "categoricalFeatures"; "medianAge"; "medianIncome"; "avgCredit"; "totalDefaults";
    "avgIncomeDefaulters"; "avgIncomeNonDefaulters"; "incomeGap"; "malePercentage";
    "femalePercentage"; "withChildrenPercentage"; "avgFamilySize"; "avgIncome";
    "avgAnnuity"; "avgDTI"; "avgLTI"; "highCreditPercentage" ]%string.

(** ** Histogram binning: [createBins] *)

Module Bins.

(** A bin; its [range] label is the template string of two rounded
    bounds, kept here as the pair of those numbers. *)
Record Bin : Type := mkBin {
  range : num * num;
  count : nat;
  min : num;
  max : num
}.

(** [arr[i]] names an element only for an integral index in range. *)
Definition array_index (i : num) (len : nat) : option nat :=
  match i with
  | Fin q =>
      if Qeq_bool q (inject_Z (Qfloor q)) && (0 <=? Qfloor q)%Z && (Qfloor q <? Z.of_nat len)%Z
      then Some (Z.to_nat (Qfloor q)) else None
  | _ => None
  end.

Fixpoint bump (i : nat) (bins : list Bin) : list Bin :=
  match bins, i with
  | [], _ => []
  | b :: bs, O => mkBin (range b) (S (count b)) (min b) (max b) :: bs
  | b :: bs, S j => b :: bump j bs
  end.

(** [None] is the [TypeError] thrown by [bins[binIndex].count++] when
    [bins[binIndex]] is [undefined]. *)
Definition createBins (values : list Q) (numBins : nat) : option (list Bin) :=
  let min := fold_left Math_min2 (map Fin values) PInf in
  let max := fold_left Math_max2 (map Fin values) NInf in
  let binSize := f_div (f_sub max min) (num_of_nat numBins) in
  let bins :=
    map (fun i =>
           let lo := f_add min (f_mul (num_of_nat i) binSize) in
           let hi := f_add min (f_mul (num_of_nat (S i)) binSize) in
           mkBin (Math_round lo, Math_round hi) 0 lo hi)
        (seq 0 numBins) in
  fold_left
    (fun acc value =>
       match acc with
       | None => None
       | Some bs =>
           let binIndex := Math_min2 (Math_floor (f_div (f_sub (Fin value) min) binSize))
                                     (f_sub (num_of_nat numBins) (Fin 1)) in
           match array_index binIndex (length bs) with
           | Some i => Some (bump i bs)
           | None => None
           end
       end)
    values (Some bins).

Definition total_count (bins : list Bin) : nat := fold_right (fun b acc => (count b + acc)%nat) 0%nat bins.

End Bins.

(** ** Pearson correlation: [calculatePearsonCorrelation] *)

Definition numericalFields : list string :=
  [ "AGE_YEARS"; "EMPLOYMENT_YEARS"; "AMT_INCOME_TOTAL"; "AMT_CREDIT"; "AMT_ANNUITY";
    "DTI"; "LOAN_TO_INCOME"; "CNT_CHILDREN"; "CNT_FAM_MEMBERS"; "TARGET" ]%string.

(** [r[field]] for the keys of [numericalFields], the only keys
    [calculateCorrelations] passes; [None] is [undefined]. *)
Definition field_value (r : HomeCreditRecord) (field : string) : option num :=
  if String.eqb field "AGE_YEARS" then AGE_YEARS r
  else if String.eqb field "EMPLOYMENT_YEARS" then EMPLOYMENT_YEARS r
  else if String.eqb field "AMT_INCOME_TOTAL" then Some (Fin (AMT_INCOME_TOTAL r))
  else if String.eqb field "AMT_CREDIT" then Some (Fin (AMT_CREDIT r))
  else if String.eqb field "AMT_ANNUITY" then Some (Fin (AMT_ANNUITY r))
  else if String.eqb field "DTI" then DTI r
  else if String.eqb field "LOAN_TO_INCOME" then LOAN_TO_INCOME r
  else if String.eqb field "CNT_CHILDREN" then Some (Fin (CNT_CHILDREN r))
  else if String.eqb field "CNT_FAM_MEMBERS" then Some (Fin (CNT_FAM_MEMBERS r))
  else if String.eqb field "TARGET" then Some (Fin (target_num (TARGET r)))
  else None.

(** [data.filter(both != null).map(r => [Number(x), Number(y)])] *)
Definition correlation_pairs (data : list HomeCreditRecord) (field1 field2 : string) : list (num * num) :=
  flat_map (fun r => match field_value r field1, field_value r field2 with
                     | Some x, Some y => [(x, y)]
                     | _, _ => []
                     end) data.

(** [pairs.reduce((sum, p) => sum + f(p), 0)] *)
Definition sum_by (f : num * num -> num) (pairs : list (num * num)) : num :=
  fold_left (fun sum p => f_add sum (f p)) pairs (Fin 0).

(** [denominator === 0] *)
Definition is_zero (a : num) : bool :=
  match a with Fin x => Qeq_bool x 0 | _ => false end.

Definition calculatePearsonCorrelation (data : list HomeCreditRecord) (field1 field2 : string) : num :=
  let pairs := correlation_pairs data field1 field2 in
  if Nat.ltb (length pairs) 2 then Fin 0 else
  let n := num_of_nat (length pairs) in
  let sumX := sum_by fst pairs in
  let sumY := sum_by snd pairs in
  let sumXY := sum_by (fun p => f_mul (fst p) (snd p)) pairs in
  let sumXX := sum_by (fun p => f_mul (fst p) (fst p)) pairs in
  let sumYY := sum_by (fun p => f_mul (snd p) (snd p)) pairs in
  let numerator := f_sub (f_mul n sumXY) (f_mul sumX sumY) in
  let denominator :=
    Math_sqrt (f_mul (f_sub (f_mul n sumXX) (f_mul sumX sumX))
                     (f_sub (f_mul n sumYY) (f_mul sumY sumY))) in
  if is_zero denominator then Fin 0 else f_div numerator denominator.

(** [calculateCorrelations]: an object keyed by the fields of
    [numericalFields], each an object keyed by the same fields, as lists of
    properties in insertion order (the keys are distinct and not
    array indices, so this is also their enumeration order). *)
Definition calculateCorrelations (data : list HomeCreditRecord) : list (string * list (string * num)) :=
  map (fun field1 =>
         (field1, map (fun field2 => (field2, calculatePearsonCorrelation data field1 field2))
                      numericalFields))
      numericalFields.

Definition prop_lookup {V} (key : string) (o : list (string * V)) : option V :=
  match find (fun kv => String.eqb (fst kv) key) o with
  | Some kv => Some (snd kv)
  | None => None
  end.

(** [correlations[field1][field2]] *)
Definition correlation_at (m : list (string * list (string * num))) (field1 field2 : string) : option num :=
  match prop_lookup field1 m with
  | Some row => prop_lookup field2 row
  | None => None
  end.

(** ** Chart data: [groupBy], [calculateDefaultRateByCategory] and the
    cases of [prepareChartData] built on them *)

(** The properties every plain object [{}] inherits from
    [Object.prototype]. *)
Definition object_prototype_keys : list string :=
  [ "__proto__"; "constructor"; "hasOwnProperty"; "isPrototypeOf";
    "propertyIsEnumerable"; "toLocaleString"; "toString"; "valueOf";
    "__defineGetter__"; "__defineSetter__"; "__lookupGetter__"; "__lookupSetter__" ]%string.

Definition inherited_key (k : string) : bool := includes object_prototype_keys k.

(** Own properties of an object, in creation order. *)
Fixpoint obj_get {V} (o : list (string * V)) (k : string) : option V :=
  match o with
  | [] => None
  | (k', v) :: o' => if String.eqb k k' then Some v else obj_get o' k
  end.

(** [o[k] = v]: an existing property keeps its place, a new one comes last. *)
Fixpoint obj_set {V} (o : list (string * V)) (k : string) (v : V) : list (string * V) :=
  match o with
  | [] => [(k, v)]
  | (k', v') :: o' => if String.eqb k k' then (k', v) :: o' else (k', v') :: obj_set o' k v
  end.

Definition digit_value (c : Ascii.ascii) : option N :=
  let n := Ascii.N_of_ascii c in
  if (48 <=? n)%N && (n <=? 57)%N then Some (n - 48)%N else None.

Fixpoint parse_digits (s : string) (acc : N) : option N :=
  match s with
  | EmptyString => Some acc
  | String c s' =>
      match digit_value c with Some d => parse_digits s' (acc * 10 + d)%N | None => None end
  end.

(** A key that is an array index: the canonical decimal form of an integer
    below [2^32 - 1]. *)
Definition array_index_key (k : string) : option N :=
  match k with
  | EmptyString => None
  | String c rest =>
      if (Ascii.N_of_ascii c =? 48)%N then
        match rest with EmptyString => Some 0%N | _ => None end
      else match parse_digits k 0 with
           | Some n => if (n <? 4294967295)%N then Some n else None
           | None => None
           end
  end.

Fixpoint insert_by_index {V} (x : N * (string * V)) (l : list (N * (string * V))) : list (N * (string * V)) :=
  match l with
  | [] => [x]
  | y :: ys => if (fst x <? fst y)%N then x :: l else y :: insert_by_index x ys
  end.

(** [Object.entries]: array-index keys first, in ascending order, then the
    other keys in creation order. *)
Definition object_entries {V} (o : list (string * V)) : list (string * V) :=
  let indexed := flat_map (fun kv => match array_index_key (fst kv) with
                                     | Some n => [(n, kv)] | None => [] end) o in
  map snd (fold_right insert_by_index [] indexed) ++
  filter (fun kv => match array_index_key (fst kv) with Some _ => false | None => true end) o.

(** [Array.prototype.sort] with a comparator, where [after a b] is the
    comparator's result being positive. The sort is stable, and for a
    consistent comparator this is its result. *)
Fixpoint stable_insert {A} (after : A -> A -> bool) (x : A) (l : list A) : list A :=
  match l with
  | [] => [x]
  | y :: ys => if after x y then y :: stable_insert after x ys else x :: l
  end.

Fixpoint stable_sort {A} (after : A -> A -> bool) (l : list A) : list A :=
  match l with
  | [] => []
  | x :: xs => stable_insert after x (stable_sort after xs)
  end.

(** [data.reduce((acc, record) => { ... acc[k] ... }, {})] with the update
    [update] of the property [k = key(record)]. [None] stands for a key that
    names an inherited property of [{}] ([acc[k]] then reads that property),
    a case this development does not model. *)
Definition own_update {V} (update : option V -> HomeCreditRecord -> V)
    (key : HomeCreditRecord -> string)
    (acc : option (list (string * V))) (record : HomeCreditRecord) : option (list (string * V)) :=
  match acc with
  | None => None
  | Some o =>
      let k := key record in
      if inherited_key k then None
      else Some (obj_set o k (update (obj_get o k) record))
  end.

Definition group_reduce {V} (update : option V -> HomeCreditRecord -> V)
    (key : HomeCreditRecord -> string) (data : list HomeCreditRecord) : option (list (string * V)) :=
  fold_left (own_update update key) data (Some []).

(** A row of [groupBy]: [{ key, count, name: key, value: count }]. *)
Record GroupRow : Type := mkGroupRow {
  key : string;
  count : nat;
  name : string;
  value : nat
}.

(** [acc[value] = (acc[value] || 0) + 1] *)
Definition group_step (c : option nat) (_ : HomeCreditRecord) : nat :=
  match c with Some n => S n | None => 1%nat end.

(** [groupBy(data, key)] for a field [key] of string type ([String] is the
    identity there). *)
Definition groupBy (data : list HomeCreditRecord) (field : HomeCreditRecord -> string) : option (list GroupRow) :=
  match group_reduce group_step field data with
  | None => None
  | Some groups =>
      Some (stable_sort (fun a b => Nat.ltb (count a) (count b))
              (map (fun kv => mkGroupRow (fst kv) (snd kv) (fst kv) (snd kv)) (object_entries groups)))
  end.

(** A row of [calculateDefaultRateByCategory]. *)
Record RateRow : Type := mkRateRow {
  category : string;
  defaultRate : num;
  total : nat;
  defaults : nat
}.

(** [if (!acc[key]) acc[key] = { total: 0, defaults: 0 }; acc[key].total++;
    if (record.TARGET === 1) acc[key].defaults++;] as [(total, defaults)]. *)
Definition rate_step (c : option (nat * nat)) (record : HomeCreditRecord) : nat * nat :=
  let cur := match c with Some v => v | None => (0%nat, 0%nat) end in
  (S (fst cur), if is_default record then S (snd cur) else snd cur).

Definition calculateDefaultRateByCategory (data : list HomeCreditRecord)
    (field : HomeCreditRecord -> string) : option (list RateRow) :=
  match group_reduce rate_step field data with
  | None => None
  | Some groups =>
      Some (stable_sort
              (fun a b => js_gt (num_sub (defaultRate b) (defaultRate a)) (Fin 0))
              (map (fun kv =>
                      mkRateRow (fst kv)
                        (num_mul (num_div (num_of_nat (snd (snd kv))) (num_of_nat (fst (snd kv)))) (Fin 100))
                        (fst (snd kv)) (snd (snd kv)))
                   (object_entries groups)))
  end.

(** [prepareChartData(data, 'target_distribution')]: rows of name, value
    and color. *)
Definition target_distribution (data : list HomeCreditRecord) : list (string * nat * string) :=
  let defaultCount := length (filter is_default data) in
  let repaidCount := (length data - defaultCount)%nat in
  [ ("Repaid", repaidCount, "hsl(var(--success))");
    ("Default", defaultCount, "hsl(var(--destructive))") ]%string.

(** [prepareChartData(data, 'gender_distribution')]: rows of name and value. *)
Definition gender_distribution (data : list HomeCreditRecord) : option (list (string * nat)) :=
  match groupBy data CODE_GENDER with
  | None => None
  | Some rows =>
      Some (map (fun row =>
                   (if String.eqb (key row) "M" then "Male"
                    else if String.eqb (key row) "F" then "Female"
                    else "Not Specified", count row)%string) rows)
  end.

(** ** Default risk of a synthetic profile: [getDefaultRiskByProfile] *)

Module Generator.

Local Open Scope R_scope.

Definition getDefaultRiskByProfile (age income : R) (education : string) (employment : R) : R :=
  let baseRisk := 0.08 in
  let baseRisk :=
    if Rlt_dec age 25 then baseRisk * 1.5
    else if Rlt_dec age 35 then baseRisk * 1.2
    else if Rgt_dec age 65 then baseRisk * 1.3
    else baseRisk in
  let baseRisk :=
    if Rlt_dec income 100000 then baseRisk * 2.0
    else if Rlt_dec income 200000 then baseRisk * 1.4
    else if Rgt_dec income 500000 then baseRisk * 0.6
    else baseRisk in
  let baseRisk :=
    if (String.eqb education "Higher education" || String.eqb education "Academic degree")%bool
    then baseRisk * 0.7
    else if String.eqb education "Lower secondary" then baseRisk * 1.4
    else baseRisk in
  let baseRisk :=
    if Rlt_dec employment 1 then baseRisk * 1.8
    else if Rgt_dec employment 10 then baseRisk * 0.8
    else baseRisk in
  Rmin 0.5 baseRisk.

(** *** Synthetic generation: [generateSyntheticData]

    [Math.random()] is JavaScript's global generator; the program passes it
    no seed. A run reads a stream of draws [d] from a position [i] and
    returns the position after its last draw; [None] is a failure (an array
    read out of range, or a [do]/[while] loop that has not stopped). *)

Definition Rand (A : Type) : Type := (nat -> R) -> nat -> option (A * nat).

Definition ret {A} (a : A) : Rand A := fun _ i => Some (a, i).

Definition bind {A B} (m : Rand A) (k : A -> Rand B) : Rand B :=
  fun d i => match m d i with Some (a, j) => k a d j | None => None end.

Definition fail {A} : Rand A := fun _ _ => None.

Notation "x <- m ;; k" := (bind m (fun x => k))
  (at level 61, m at next level, right associativity).

Definition Math_random : Rand R := fun d i => Some (d i, S i).

(** [Math.floor] and [Math.round] on reals. *)
Definition Math_floor_R (x : R) : Z := Int_part x.

Definition Math_round_R (x : R) : Z := Int_part (x + / 2).

(** [xs[Math.floor(Math.random() * xs.length)]] *)
Definition pick {A} (xs : list A) : Rand A :=
  r <- Math_random ;;
  let k := Math_floor_R (r * INR (length xs)) in
  if (0 <=? k)%Z then
    match nth_error xs (Z.to_nat k) with Some x => ret x | None => fail end
  else fail.

Definition educationTypes : list string :=
  ["Secondary / secondary special"; "Higher education"; "Incomplete higher";
   "Lower secondary"; "Academic degree"]%string.

Definition familyStatusTypes : list string :=
  ["Married"; "Single / not married"; "Civil marriage"; "Separated"; "Widow"]%string.

Definition housingTypes : list string :=
  ["House / apartment"; "With parents"; "Municipal apartment"; "Rented apartment";
   "Office apartment"; "Co-op apartment"]%string.

Definition occupationTypes : list string :=
  ["Laborers"; "Core staff"; "Sales staff"; "Managers"; "Drivers";
   "High skill tech staff"; "Accountants"; "Medicine staff"; "Security staff";
   "Cooking staff"; "Cleaning staff"; "Private service staff"; "Low-skill Laborers";
   "Waiters/barmen staff"; "Secretaries"; "Realty agents"; "HR staff"; "IT staff"]%string.

Definition contractTypes : list string := ["Cash loans"; "Revolving loans"]%string.

Definition randomIncome : Rand R :=
  a <- Math_random ;; b <- Math_random ;; c <- Math_random ;;
  let mean := 11.5 in
  let stdDev := 0.8 in
  let normal := a * b * c in
  e <- Math_random ;;
  ret (exp (mean + stdDev * (normal - 0.5) * 6) * (0.5 + e * 0.5)).

(** The [do { ... } while (age < 18 || age > 80)] loop, with [fuel]
    iterations at most. *)
Fixpoint randomAge_loop (fuel : nat) : Rand R :=
  match fuel with
  | O => fail
  | S fuel' =>
      a <- Math_random ;; b <- Math_random ;;
      let age := 42 + 12 * (a + b - 1) in
      if (if Rlt_dec age 18 then true else if Rgt_dec age 80 then true else false)
      then randomAge_loop fuel'
      else ret age
  end.

Definition randomAge : Rand Z :=
  age <- randomAge_loop 1000 ;; ret (Math_round_R age).

Definition randomCredit (income : R) : Rand R :=
  a <- Math_random ;;
  let multiplier := 2 + a * 6 in
  b <- Math_random ;;
  ret (income * multiplier * (0.8 + b * 0.4)).

(** One iteration of the loop of [generateSyntheticData], for index [i];
    the fields of the object literal are evaluated in their order. *)
Definition generate_record (i : nat) : Rand HomeCreditRecord :=
  age <- randomAge ;;
  income <- randomIncome ;;
  education <- pick educationTypes ;;
  employment <- (r <- Math_random ;;
                 if Rgt_dec r 0.1 then (s <- Math_random ;; ret (s * 25)) else ret (-1)) ;;
  let defaultRisk := getDefaultRiskByProfile (IZR age) income education employment in
  t <- Math_random ;;
  let target := if Rlt_dec t defaultRisk then T1 else T0 in
  credit <- randomCredit income ;;
  a <- Math_random ;;
  let annuity := credit * (0.05 + a * 0.15) / 12 in
  gender <- (r <- Math_random ;;
             if Rgt_dec r 0.65 then ret "F"%string
             else (s <- Math_random ;; if Rgt_dec s 0.95 then ret "XNA"%string else ret "M"%string)) ;;
  family <- pick familyStatusTypes ;;
  children <- (r <- Math_random ;;
               if Rgt_dec r 0.4 then ret 0%Z else (s <- Math_random ;; ret (Math_floor_R (s * 4)))) ;;
  members <- (r <- Math_random ;; ret (1 + Math_floor_R (r * 5))%Z) ;;
  occupation <- (r <- Math_random ;; if Rgt_dec r 0.05 then pick occupationTypes else ret ""%string) ;;
  housing <- pick housingTypes ;;
  g <- Math_random ;;
  contract <- pick contractTypes ;;
  region <- (r <- Math_random ;; ret (1 + Math_floor_R (r * 3))%Z) ;;
  car <- (r <- Math_random ;; ret (if Rgt_dec r 0.5 then "Y"%string else "N"%string)) ;;
  realty <- (r <- Math_random ;; ret (if Rgt_dec r 0.3 then "Y"%string else "N"%string)) ;;
  ret (mkRecord (inject_Z (100000 + Z.of_nat i)) target gender
         (inject_Z (- Math_round_R (IZR age * 365.25)))
         (if Rgt_dec employment 0 then inject_Z (- Math_round_R (employment * 365.25)) else 365243%Q)
         family (inject_Z children) (inject_Z members) education occupation housing
         (inject_Z (Math_round_R income)) (inject_Z (Math_round_R credit))
         (inject_Z (Math_round_R annuity)) (inject_Z (Math_round_R (credit * (0.8 + g * 0.4))))
         contract (inject_Z region) car realty
         None None None None None None).

(** [for (let i = start; ...; i++)] over [count] iterations. *)
Fixpoint gen_from (start count : nat) : Rand (list HomeCreditRecord) :=
  match count with
  | O => ret []
  | S count' =>
      record <- generate_record start ;;
      records <- gen_from (S start) count' ;;
      ret (record :: records)
  end.

Definition generateSyntheticData (numRecords : nat) : Rand (list HomeCreditRecord) :=
  gen_from 0 numRecords.

Definition generateCompleteDataset (numRecords : nat) : Rand (list HomeCreditRecord) :=
  raw <- generateSyntheticData numRecords ;;
  let processed := preprocessData raw in
  ret (addIncomeBrackets processed).

(** Reasoning about runs: [wp m d i Q] says the run of [m] on the draws [d]
    from position [i] succeeds with a result and end position satisfying [Q];
    [respects m] says a run depends on the values of the draws only. *)
Definition wp {A} (m : Rand A) (d : nat -> R) (i : nat) (Q : A -> nat -> Prop) : Prop :=
  match m d i with Some (a, j) => Q a j | None => False end.

Definition respects {A} (m : Rand A) : Prop :=
  forall d d', (forall k, d k = d' k) -> forall i, m d i = m d' i.

(** Every value [Math.random()] returns lies in [[0, 1)]. *)
Definition draws_ok (d : nat -> R) : Prop := forall k, 0 <= d k < 1.

End Generator.

(** ** Sample inputs *)

(** Two streams of [Math.random()] values: all zero, and all zero but for
    the draw the first record's target reads. *)
Definition draws_zero : nat -> R := fun _ => 0%R.

Definition draws_high_target : nat -> R := fun k => if Nat.eqb k 8 then (9 / 10)%R else 0%R.

(** Two raw records as the generator writes them: the first applicant
    unemployed (the [365243] code), the second employed for ten years. *)
Definition sample_record1 : HomeCreditRecord :=
  mkRecord 100000 T1 "M" (-10000) 365243 "Married" 0 2 "Higher education" ""
           "With parents" 150000 500000 25000 450000 "Cash loans" 2 "Y" "N"
           None None None None None None.

Definition sample_record2 : HomeCreditRecord :=
  mkRecord 100001 T0 "F" (-15000) (-3653) "Single / not married" 1 3 "Lower secondary" "Laborers"
           "House / apartment" 90000 270000 18000 300000 "Cash loans" 1 "N" "Y"
           None None None None None None.

Definition sample_data : list HomeCreditRecord :=
  addIncomeBrackets (preprocessData [sample_record1; sample_record2]).

(** The filters the overview page starts with and resets to. *)
Definition default_filters : FilterState :=
  mkFilter [] [] [] [] (18, 80) "all" (0, 40).

(** Two applicants declaring an income of 0, as a CSV upload can supply
    ([parseFloat("0")]). *)
Definition zero_income_record1 : HomeCreditRecord :=
  mkRecord 100002 T0 "M" (-12000) (-2000) "Married" 0 2 "Higher education" "Core staff"
           "House / apartment" 0 400000 20000 380000 "Cash loans" 2 "N" "Y"
           None None None None None None.

Definition zero_income_record2 : HomeCreditRecord :=
  mkRecord 100003 T1 "F" (-9000) (-700) "Married" 1 3 "Higher education" "Sales staff"
           "Rented apartment" 0 300000 15000 270000 "Cash loans" 2 "N" "N"
           None None None None None None.

(** A raw record born 15000 days ago, with an id and an income. *)
Definition constant_age_record (id income : Q) : HomeCreditRecord :=
  mkRecord id T0 "M" (-15000) (-2000) "Married" 0 2 "Higher education" "Core staff"
           "House / apartment" income 400000 20000 380000 "Cash loans" 2 "N" "Y"
           None None None None None None.

(** The default filter state of the overview page. *)
Definition open_filters : FilterState :=
  mkFilter [] [] [] [] (18, 80) "all" (0, 50).

(** ** Specification-side notions *)

(** The raw fields of a record, in declaration order. *)
Record RawFields : Type := mkRaw {
  raw_id : Q; raw_target : target; raw_gender : string; raw_days_birth : Q;
  raw_days_employed : Q; raw_family : string; raw_children : Q; raw_fam_members : Q;
  raw_education : string; raw_occupation : string; raw_housing : string;
  raw_income : Q; raw_credit : Q; raw_annuity : Q; raw_goods : Q; raw_contract : string;
  raw_region : Q; raw_car : string; raw_realty : string
}.

Definition raw_of (r : HomeCreditRecord) : RawFields :=
  mkRaw (SK_ID_CURR r) (TARGET r) (CODE_GENDER r) (DAYS_BIRTH r) (DAYS_EMPLOYED r)
        (NAME_FAMILY_STATUS r) (CNT_CHILDREN r) (CNT_FAM_MEMBERS r) (NAME_EDUCATION_TYPE r)
        (OCCUPATION_TYPE r) (NAME_HOUSING_TYPE r) (AMT_INCOME_TOTAL r) (AMT_CREDIT r)
        (AMT_ANNUITY r) (AMT_GOODS_PRICE r) (NAME_CONTRACT_TYPE r) (REGION_RATING_CLIENT r)
        (FLAG_OWN_CAR r) (FLAG_OWN_REALTY r).

(** The five ratio and tenure fields set by [preprocessData]. *)
Definition derived5 (r : HomeCreditRecord) :=
  (AGE_YEARS r, EMPLOYMENT_YEARS r, DTI r, LOAN_TO_INCOME r, ANNUITY_TO_CREDIT r).

(** A present value lies in [[lo, hi]]; NaN is no value. *)
Definition covered (range : Q * Q) (x : num) : bool :=
  match x with
  | NaN => true
  | _ => js_le (Fin (fst range)) x && js_le x (Fin (snd range))
  end.

Definition employment_absent_or_zero (r : HomeCreditRecord) : Prop :=
  match EMPLOYMENT_YEARS r with
  | None => True
  | Some (Fin z) => z == 0
  | Some _ => False
  end.

(** The bracket rule of the specification, on a sorted income list [s]:
    [Q1 = s[floor(n/4)]], [Q3 = s[floor(3n/4)]]. *)
Definition spec_bracket (q1 q3 income : Q) : bracket :=
  if Qle_bool income q1 then Low else if Qle_bool q3 income then High else Mid.

(** The default-risk model of the specification: a baseline of 8%
    times one factor per attribute, clipped to 0.5. *)
Definition age_factor (age : R) : R :=
  if Rlt_dec age 25 then 1.5 else if Rlt_dec age 35 then 1.2
  else if Rgt_dec age 65 then 1.3 else 1.
Definition income_factor (income : R) : R :=
  if Rlt_dec income 100000 then 2 else if Rlt_dec income 200000 then 1.4
  else if Rgt_dec income 500000 then 0.6 else 1.
Definition education_factor (education : string) : R :=
  if String.eqb education "Higher education" then 0.7
  else if String.eqb education "Academic degree" then 0.7
  else if String.eqb education "Lower secondary" then 1.4 else 1.
Definition employment_factor (employment : R) : R :=
  if Rlt_dec employment 1 then 1.8 else if Rgt_dec employment 10 then 0.8 else 1.
Definition spec_risk (age income : R) (education : string) (employment : R) : R :=
  Rmin 0.5 (0.08 * age_factor age * income_factor income * education_factor education
            * employment_factor employment).

(** A number other than NaN and the infinities. *)
Definition finite_num (v : num) : bool :=
  match v with Fin _ => true | _ => false end.

(** ** Sorting finite values *)

Definition qgtb (y x : Q) : bool := js_lt (Fin 0) (num_sub (Fin y) (Fin x)).

Lemma qgtb_spec : forall y x, qgtb y x = true <-> x < y.
Proof.
  intros y x. unfold qgtb, js_lt, num_sub; simpl.
  destruct (Qcompare 0 (y + - x)) eqn:E.
  - split; [discriminate|]. intro H. apply Qeq_alt in E. exfalso.
    apply (Qlt_irrefl 0). rewrite E at 2. apply Qlt_minus_iff in H. exact H.
  - split; [intros _|reflexivity]. apply Qlt_alt in E. apply Qlt_minus_iff. exact E.
  - split; [discriminate|]. intro H. apply Qgt_alt in E. exfalso.
    apply Qlt_minus_iff in H. apply (Qlt_irrefl 0). eapply Qlt_trans; eauto.
Qed.

Fixpoint qinsert (x : Q) (l : list Q) : list Q :=
  match l with
  | [] => [x]
  | y :: ys => if qgtb y x then x :: l else y :: qinsert x ys
  end.

Fixpoint qsort (l : list Q) : list Q :=
  match l with
  | [] => []
  | x :: xs => qinsert x (qsort xs)
  end.

Lemma js_insert_fin : forall x l, js_insert (Fin x) (map Fin l) = map Fin (qinsert x l).
Proof.
  intros x l; induction l as [|y ys IH]; simpl; [reflexivity|].
  unfold qgtb; simpl.
  destruct (js_lt (Fin 0) (Fin (y + - x))); simpl; [reflexivity|]. now rewrite IH.
Qed.

Lemma js_sort_fin : forall l, js_sort (map Fin l) = map Fin (qsort l).
Proof.
  induction l as [|x xs IH]; simpl; [reflexivity|]. now rewrite IH, js_insert_fin.
Qed.

Lemma qinsert_perm : forall x l, Permutation (qinsert x l) (x :: l).
Proof.
  intros x l; induction l as [|y ys IH]; simpl; [constructor; constructor|].
  destruct (qgtb y x); [reflexivity|].
  eapply perm_trans; [apply perm_skip, IH|]. apply perm_swap.
Qed.

Lemma qsort_perm : forall l, Permutation (qsort l) l.
Proof.
  induction l as [|x xs IH]; simpl; [constructor|].
  eapply perm_trans; [apply qinsert_perm|]. now apply perm_skip.
Qed.

Lemma qinsert_sorted : forall x l, Sorted Qle l -> Sorted Qle (qinsert x l).
Proof.
  intros x l; induction l as [|y ys IH]; intro Hs; simpl.
  - repeat constructor.
  - destruct (qgtb y x) eqn:E.
    + apply qgtb_spec in E. constructor; [exact Hs|]. constructor. now apply Qlt_le_weak.
    + assert (Hyx : y <= x).
      { apply Qnot_lt_le. intro H. apply qgtb_spec in H. congruence. }
      inversion Hs as [|? ? Hys Hhd]; subst. constructor; [now apply IH|].
      destruct ys as [|z zs]; simpl.
      * now constructor.
      * destruct (qgtb z x); constructor; [exact Hyx|]. now inversion Hhd.
Qed.

Lemma qsort_sorted : forall l, Sorted Qle (qsort l).
Proof. induction l; simpl; [constructor|]. now apply qinsert_sorted. Qed.

Lemma qsort_length : forall l, length (qsort l) = length l.
Proof. intro l. apply Permutation_length, qsort_perm. Qed.

Lemma fold_add_fin : forall l s, fold_left num_add (map Fin l) (Fin s) = Fin (fold_left Qplus l s).
Proof. induction l as [|x xs IH]; intro s; simpl; [reflexivity|]. apply IH. Qed.

Lemma quantile_index_quarter : forall n, quantile_index n 0.25 = Nat.div n 4.
Proof.
  intro n. unfold quantile_index, Qfloor, inject_Z, Qmult. cbn -[Nat.div Z.div].
  replace (Z.of_nat n * 25 / 100)%Z with (Z.of_nat n / Z.of_nat 4)%Z.
  - now rewrite <- Nat2Z.inj_div, Nat2Z.id.
  - replace 100%Z with (4 * 25)%Z by reflexivity.
    rewrite Z.div_mul_cancel_r by lia. reflexivity.
Qed.

Lemma quantile_index_three_quarters : forall n, quantile_index n 0.75 = Nat.div (3 * n) 4.
Proof.
  intro n. unfold quantile_index, Qfloor, inject_Z, Qmult. cbn -[Nat.div Z.div Nat.mul].
  replace (Z.of_nat n * 75 / 100)%Z with (Z.of_nat (3 * n) / Z.of_nat 4)%Z.
  - now rewrite <- Nat2Z.inj_div, Nat2Z.id.
  - replace 100%Z with (4 * 25)%Z by reflexivity.
    replace (Z.of_nat n * 75)%Z with (Z.of_nat (3 * n) * 25)%Z by lia.
    rewrite Z.div_mul_cancel_r by lia. reflexivity.
Qed.

Lemma even_mod2 : forall n, Nat.even n = Nat.eqb (Nat.modulo n 2) 0.
Proof.
  intro n. rewrite (Nat.div_mod_eq n 2) at 1.
  rewrite Nat.add_comm, Nat.even_add_mul_2.
  assert (Hb : (Nat.modulo n 2 < 2)%nat) by (apply Nat.mod_upper_bound; lia).
  destruct (Nat.modulo n 2) as [|[|k]]; [reflexivity|reflexivity|lia].
Qed.

Lemma js_le_fin : forall a b, js_le (Fin a) (Fin b) = Qle_bool a b.
Proof.
  intros a b. unfold js_le; simpl.
  destruct (Qle_bool a b) eqn:E.
  - apply Qle_bool_iff in E. rewrite Qle_alt in E. destruct (a ?= b); congruence.
  - destruct (a ?= b) eqn:C; try reflexivity; exfalso;
      assert (Hle : a <= b) by (rewrite Qle_alt; congruence);
      apply Qle_bool_iff in Hle; congruence.
Qed.

Lemma js_le_not_gt : forall a b, js_le a b = true -> js_lt b a = false.
Proof.
  intros [x| | |] [y| | |]; unfold js_le, js_lt; simpl; try reflexivity; try discriminate.
  rewrite <- (Qcompare_antisym x y). destruct (x ?= y); simpl; congruence.
Qed.

Lemma filter_all_true : forall {A} (f : A -> bool) l,
  (forall x, In x l -> f x = true) -> filter f l = l.
Proof.
  intros A f l; induction l as [|x xs IH]; intro H; simpl; [reflexivity|].
  rewrite (H x (or_introl eq_refl)). f_equal. apply IH. intros y Hy. apply H. now right.
Qed.

Lemma range_ok_covered : forall v range,
  (forall x, v = Some x -> covered range x = true) -> range_ok v range = true.
Proof.
  intros [x|] [lo hi] H; unfold range_ok; simpl; [|reflexivity].
  specialize (H x eq_refl).
  destruct x as [q| | |]; simpl in *;
    try (apply andb_prop in H as [H1 H2]; unfold js_gt;
         rewrite (js_le_not_gt _ _ H1), (js_le_not_gt _ _ H2);
         simpl; rewrite ?andb_false_r; reflexivity).
  all: try reflexivity; unfold js_le in H; simpl in H; discriminate.
Qed.

Lemma nth_error_map_fin : forall s k q,
  nth_error s k = Some q -> nth_error (map Fin s) k = Some (Fin q).
Proof. intros s k q H. rewrite nth_error_map, H. reflexivity. Qed.

Lemma nth_error_in_range : forall (s : list Q) k, (k < length s)%nat -> exists q, nth_error s k = Some q.
Proof.
  intros s k Hk. destruct (nth_error s k) as [q|] eqn:E; [eauto|].
  apply nth_error_None in E. lia.
Qed.

(** ** C1: the KPI summary of an empty collection *)

(** C1 (counterexample): for an empty collection, [calculateKPIs]
    returns [{}]; the metric [totalApplicants] is absent, not zero. *)
Lemma calculateKPIs_empty_lacks_totalApplicants :
  kpi_lookup "totalApplicants" (calculateKPIs []) = None /\
  kpi_lookup "defaultRate" (calculateKPIs []) = None.
Proof. split; reflexivity. Qed.

(** C1: for an empty collection [calculateKPIs] returns, without
    throwing, the empty object: no named metric is present. Every named
    metric is present exactly when the collection is non-empty. *)
Theorem calculateKPIs_empty_object :
  calculateKPIs [] = [] /\
  (forall key, kpi_lookup key (calculateKPIs []) = None) /\
  (forall data, data <> [] -> forall key, In key kpi_names ->
     exists v, kpi_lookup key (calculateKPIs data) = Some v).
Proof.
  split; [reflexivity|]. split; [reflexivity|].
  intros [|r rs] Hne key Hin; [congruence|].
  simpl in Hin. repeat destruct Hin as [<-|Hin]; try (eexists; reflexivity). contradiction.
Qed.

(** ** C2: histogram binning of identical values *)

(** C2: with all values identical, [binSize] is [0], every
    [(value - min) / binSize] is [0 / 0 = NaN], and [bins[NaN].count++]
    throws: [createBins([5, 5], 15)] fails. *)
Theorem createBins_identical_values_throw : Bins.createBins [5; 5] 15 = None.
Proof. vm_compute. reflexivity. Qed.

(** ** C4: the unconstrained filter is the identity *)

(** C4: with every category list empty, income bracket ['all'] and
    age and employment ranges covering every value present in the
    records, [applyFilters] returns its input unchanged. *)
Theorem applyFilters_unconstrained_identity :
  forall data filters,
    gender filters = [] -> education filters = [] ->
    familyStatus filters = [] -> housingType filters = [] ->
    incomeBracket filters = "all"%string ->
    (forall r x, In r data -> AGE_YEARS r = Some x -> covered (ageRange filters) x = true) ->
    (forall r x, In r data -> EMPLOYMENT_YEARS r = Some x -> covered (employmentRange filters) x = true) ->
    applyFilters data filters = data.
Proof.
  intros data filters Hg He Hf Hh Hb Ha Hm.
  apply filter_all_true. intros r Hr. unfold keep.
  rewrite Hg, He, Hf, Hh. unfold income_bracket_ok. rewrite Hb. simpl.
  unfold age_ok, employment_ok.
  rewrite (range_ok_covered _ _ (fun x => Ha r x Hr)), (range_ok_covered _ _ (fun x => Hm r x Hr)).
  reflexivity.
Qed.

Lemma applyFilters_unconstrained_identity_witness :
  applyFilters sample_data open_filters = sample_data.
Proof.
  apply applyFilters_unconstrained_identity; try reflexivity;
    intros r x Hr Hx; vm_compute in Hr;
    repeat destruct Hr as [<-|Hr]; try contradiction;
    vm_compute in Hx; injection Hx as <-; vm_compute; reflexivity.
Defined.

(** ** C5: income brackets from index-based quartiles *)

(** C5: [addIncomeBrackets] sorts the incomes of the whole collection
    ascending into [s], takes [Q1 = s[floor(n/4)]] and
    [Q3 = s[floor(3n/4)]] (both in range for a non-empty collection), and
    labels each record Low when its income is [<= Q1], otherwise High when
    it is [>= Q3], otherwise Mid; no other field changes. *)
Theorem addIncomeBrackets_quartiles :
  forall records, records <> [] ->
  exists s q1 q3,
    Sorted Qle s /\ Permutation s (map AMT_INCOME_TOTAL records) /\
    nth_error s (Nat.div (length records) 4) = Some q1 /\
    nth_error s (Nat.div (3 * length records) 4) = Some q3 /\
    addIncomeBrackets records =
      map (fun r => set_bracket r (spec_bracket q1 q3 (AMT_INCOME_TOTAL r))) records.
Proof.
  intros records Hne.
  set (s := qsort (map AMT_INCOME_TOTAL records)).
  assert (Hlen : length s = length records)
    by (unfold s; now rewrite qsort_length, length_map).
  assert (Hpos : (0 < length records)%nat)
    by (destruct records; [congruence|simpl; lia]).
  destruct (nth_error_in_range s (Nat.div (length records) 4)) as [q1 Hq1].
  { rewrite Hlen. apply Nat.div_lt; lia. }
  destruct (nth_error_in_range s (Nat.div (3 * length records) 4)) as [q3 Hq3].
  { rewrite Hlen. apply Nat.Div0.div_lt_upper_bound; lia. }
  exists s, q1, q3. split; [apply qsort_sorted|]. split; [apply qsort_perm|].
  split; [exact Hq1|]. split; [exact Hq3|].
  unfold addIncomeBrackets.
  replace (map (fun r => Fin (AMT_INCOME_TOTAL r)) records) with (map Fin (map AMT_INCOME_TOTAL records))
    by now rewrite map_map.
  rewrite js_sort_fin. fold s. rewrite length_map, Hlen.
  rewrite quantile_index_quarter, quantile_index_three_quarters.
  rewrite (nth_error_map_fin _ _ _ Hq1), (nth_error_map_fin _ _ _ Hq3).
  apply map_ext. intro r. unfold bracket_of, spec_bracket, js_le_opt, js_ge_opt, js_ge.
  now rewrite !js_le_fin.
Qed.

Lemma addIncomeBrackets_quartiles_witness :
  [sample_record1; sample_record2] <> [] /\
  exists s q1 q3,
    Sorted Qle s /\ Permutation s (map AMT_INCOME_TOTAL [sample_record1; sample_record2]) /\
    nth_error s (Nat.div (length [sample_record1; sample_record2]) 4) = Some q1 /\
    nth_error s (Nat.div (3 * length [sample_record1; sample_record2]) 4) = Some q3 /\
    addIncomeBrackets [sample_record1; sample_record2] =
      map (fun r => set_bracket r (spec_bracket q1 q3 (AMT_INCOME_TOTAL r))) [sample_record1; sample_record2].
Proof.
  split; [discriminate|].
  apply addIncomeBrackets_quartiles. discriminate.
Defined.

(** ** C7: [mean] and [median] *)

(** C7 (counterexample): two finite values, each [2 ^ 1023] (about
    [8.99e307]), whose sum overflows: [mean] and [median] return
    [Infinity], not a real number. *)
Lemma mean_median_overflow :
  mean (map Fin [pow2 1023; pow2 1023]) = Some PInf /\
  median (map Fin [pow2 1023; pow2 1023]) = Some PInf.
Proof. split; vm_compute; reflexivity. Qed.

(** C7 (amended): on finite values, [mean] and [median] return [null]
    exactly for the empty list and a number otherwise: [mean] is the
    floating-point sum, from left to right, divided by the length;
    [median] reads the ascending order [s] of its input: the middle
    element for an odd length, [(a + b) / 2] in floating point for the two
    middle elements [a] and [b] of an even length. Both can overflow to
    [Infinity]. [median([1,2,3,4]) = 2.5] and [median([1,2,3]) = 2]. *)
Theorem mean_median_spec :
  forall l : list Q,
    (mean (map Fin l) = None <-> l = []) /\
    (median (map Fin l) = None <-> l = []) /\
    (l <> [] ->
       mean (map Fin l) =
         Some (f_div (fold_left f_add (map Fin l) (Fin 0)) (num_of_nat (length l))) /\
       exists s, Sorted Qle s /\ Permutation s l /\
         median (map Fin l) =
           Some (if Nat.even (length l)
                 then f_div (f_add (Fin (nth (Nat.div (length l) 2 - 1) s 0))
                                   (Fin (nth (Nat.div (length l) 2) s 0))) (Fin 2)
                 else Fin (nth (Nat.div (length l) 2) s 0))) /\
    median (map Fin [1; 2; 3; 4]) = Some (Fin (5 # 2)) /\
    median (map Fin [1; 2; 3]) = Some (Fin 2).
Proof.
  intro l.
  destruct l as [|x xs].
  { split; [split; reflexivity|]. split; [split; reflexivity|].
    split; [intro H; contradiction H; reflexivity|]. split; vm_compute; reflexivity. }
  set (l := x :: xs).
  assert (Hne : l <> []) by discriminate.
  assert (Hmean : mean (map Fin l) =
            Some (f_div (fold_left f_add (map Fin l) (Fin 0)) (num_of_nat (length l)))).
  { unfold mean. simpl map at 1. rewrite <- (map_cons Fin x xs). fold l.
    rewrite length_map. reflexivity. }
  set (s := qsort l).
  assert (Hlen : length s = length l) by apply qsort_length.
  assert (Hpos : (0 < length l)%nat) by (simpl; lia).
  assert (Hmed : median (map Fin l) =
           Some (if Nat.even (length l)
                 then f_div (f_add (Fin (nth (Nat.div (length l) 2 - 1) s 0))
                                   (Fin (nth (Nat.div (length l) 2) s 0))) (Fin 2)
                 else Fin (nth (Nat.div (length l) 2) s 0))).
  { unfold median. simpl map at 1. cbv zeta. rewrite <- (map_cons Fin x xs). fold l.
    rewrite js_sort_fin. fold s. rewrite length_map, Hlen, <- even_mod2.
    destruct (Nat.even (length l)) eqn:Ev.
    - assert (Hm : (1 <= Nat.div (length l) 2)%nat).
      { apply Nat.even_spec in Ev. destruct Ev as [k Hk]. rewrite Hk.
        rewrite Nat.mul_comm, Nat.div_mul by lia. lia. }
      assert (Hlt : (Nat.div (length l) 2 < length l)%nat) by (apply Nat.div_lt; lia).
      unfold js_at.
      replace (Z.of_nat (Nat.div (length l) 2) - 1 <? 0)%Z with false by lia.
      replace (Z.of_nat (Nat.div (length l) 2) <? 0)%Z with false by lia.
      replace (Z.to_nat (Z.of_nat (Nat.div (length l) 2) - 1)) with (Nat.div (length l) 2 - 1)%nat by lia.
      rewrite Nat2Z.id.
      rewrite (nth_error_nth' (map Fin s) (Fin 0)) by (rewrite length_map; lia).
      rewrite (nth_error_nth' (map Fin s) (Fin 0) (n := Nat.div (length l) 2)) by (rewrite length_map; lia).
      rewrite !(map_nth Fin s 0). reflexivity.
    - assert (Hlt : (Nat.div (length l) 2 < length l)%nat) by (apply Nat.div_lt; lia).
      rewrite (nth_error_nth' (map Fin s) (Fin 0)) by (rewrite length_map; lia).
      rewrite (map_nth Fin s 0). reflexivity. }
  split; [split; [rewrite Hmean; discriminate|intro H; discriminate H]|].
  split; [split; [rewrite Hmed; discriminate|intro H; discriminate H]|].
  split; [intros _; split; [exact Hmean|]|].
  - exists s. split; [apply qsort_sorted|]. split; [apply qsort_perm|]. exact Hmed.
  - split; vm_compute; reflexivity.
Qed.

(** ** C9: leniency of the age and employment predicates *)

(** C9: for every range, a record without a derived age passes the age
    check, and a record whose employment years are absent or zero passes
    the employment check; for such a record [applyFilters] keeps it
    exactly when the five other checks keep it. *)
Theorem applyFilters_missing_age_employment_pass :
  forall filters record,
    (AGE_YEARS record = None -> age_ok filters record = true) /\
    (employment_absent_or_zero record -> employment_ok filters record = true) /\
    (AGE_YEARS record = None -> employment_absent_or_zero record ->
       forall data, In record (applyFilters data filters) <->
         In record data /\
         category_ok (gender filters) (CODE_GENDER record) &&
         category_ok (education filters) (NAME_EDUCATION_TYPE record) &&
         category_ok (familyStatus filters) (NAME_FAMILY_STATUS record) &&
         category_ok (housingType filters) (NAME_HOUSING_TYPE record) &&
         income_bracket_ok filters record = true).
Proof.
  intros filters record.
  assert (Ha : AGE_YEARS record = None -> age_ok filters record = true).
  { intro H. unfold age_ok, range_ok. now rewrite H. }
  assert (He : employment_absent_or_zero record -> employment_ok filters record = true).
  { unfold employment_absent_or_zero, employment_ok, range_ok.
    destruct (EMPLOYMENT_YEARS record) as [[z| | |]|]; intro H; try contradiction; try reflexivity.
    simpl. apply Qeq_bool_iff in H. now rewrite H. }
  split; [exact Ha|]. split; [exact He|].
  intros HA HE data. unfold applyFilters. rewrite filter_In. unfold keep.
  rewrite (Ha HA), (He HE), !andb_true_r. reflexivity.
Qed.

(** ** C10: derivation writes only derived fields *)

(** C10: [preprocessData] and [addIncomeBrackets] leave every raw field
    of every record unchanged; [preprocessData] sets the five derived
    numeric fields and keeps the income bracket; [addIncomeBrackets] sets
    the income bracket and keeps the five derived numeric fields. *)
Theorem derivation_frame :
  forall records,
    map raw_of (preprocessData records) = map raw_of records /\
    map INCOME_BRACKET (preprocessData records) = map INCOME_BRACKET records /\
    Forall (fun r => exists a e d l c, derived5 r = (Some a, Some e, Some d, Some l, Some c))
           (preprocessData records) /\
    map raw_of (addIncomeBrackets records) = map raw_of records /\
    map derived5 (addIncomeBrackets records) = map derived5 records /\
    Forall (fun r => exists b, INCOME_BRACKET r = Some b) (addIncomeBrackets records).
Proof.
  intro records. unfold preprocessData, addIncomeBrackets. cbv zeta.
  rewrite !map_map. refine (conj _ (conj _ (conj _ (conj _ (conj _ _))))).
  - apply map_ext. reflexivity.
  - apply map_ext. reflexivity.
  - apply Forall_map, Forall_forall. intros r _. do 5 eexists. reflexivity.
  - apply map_ext. reflexivity.
  - apply map_ext. reflexivity.
  - apply Forall_map, Forall_forall. intros r _. eexists. reflexivity.
Qed.

(** ** C6: the default-risk score *)

Ltac decide_reals :=
  repeat match goal with
         | |- context [Rlt_dec ?a ?b] => destruct (Rlt_dec a b)
         | |- context [Rgt_dec ?a ?b] => destruct (Rgt_dec a b)
         | |- context [Rle_dec ?a ?b] => destruct (Rle_dec a b)
         end.

Lemma Rmin_half_bounds : forall x, (0 < x)%R -> (0 < Rmin 0.5 x <= 0.5)%R.
Proof. intros x Hx. unfold Rmin. destruct (Rle_dec 0.5 x); lra. Qed.

(** C6 (counterexample): the age factor does not reduce the risk in the
    mid range: at age 45 the score is the 8% baseline itself, and at age
    30 it is raised to 9.6%. *)
Lemma getDefaultRiskByProfile_no_midrange_discount :
  Generator.getDefaultRiskByProfile 45 300000 "Secondary / secondary special" 5 = 0.08%R /\
  Generator.getDefaultRiskByProfile 30 300000 "Secondary / secondary special" 5 = 0.096%R.
Proof.
  split; unfold Generator.getDefaultRiskByProfile; simpl; decide_reals; try lra;
    unfold Rmin; decide_reals; lra.
Qed.

(** C6: the score is [min(0.5, 0.08 * a * i * e * m)] with the age factor
    1.5 under 25, 1.2 from 25 to under 35, 1.3 over 65 and 1 from 35 to 65
    (no mid-range reduction); the income factor 2 under 100k, 1.4 under
    200k, 0.6 over 500k; the education factor 0.7 for higher education and
    academic degrees and 1.4 for lower secondary; the employment factor 1.8
    under one year and 0.8 over ten years; all other factors 1. The score
    lies in [(0, 0.5]]. *)
Theorem getDefaultRiskByProfile_factors :
  forall age income education employment,
    Generator.getDefaultRiskByProfile age income education employment =
      spec_risk age income education employment /\
    (0 < Generator.getDefaultRiskByProfile age income education employment <= 0.5)%R /\
    ((35 <= age <= 65)%R -> age_factor age = 1%R).
Proof.
  intros age income education employment.
  assert (Heq : Generator.getDefaultRiskByProfile age income education employment =
                spec_risk age income education employment).
  { unfold Generator.getDefaultRiskByProfile, spec_risk, age_factor, income_factor,
      education_factor, employment_factor.
    destruct (String.eqb education "Higher education");
      destruct (String.eqb education "Academic degree");
      destruct (String.eqb education "Lower secondary"); simpl;
      decide_reals; apply (f_equal (Rmin 0.5)); lra. }
  split; [exact Heq|]. split.
  - rewrite Heq. apply Rmin_half_bounds.
    unfold age_factor, income_factor, education_factor, employment_factor.
    destruct (String.eqb education "Higher education");
      destruct (String.eqb education "Academic degree");
      destruct (String.eqb education "Lower secondary"); decide_reals; lra.
  - intro H. unfold age_factor. decide_reals; lra.
Qed.

(** ** Rounding to doubles *)

Lemma pow2_add : forall x y, pow2 (x + y) == pow2 x * pow2 y.
Proof. intros x y. unfold pow2. apply Qpower_plus. intro H. inversion H. Qed.

Lemma pow2_Z : forall z, (0 <= z)%Z -> pow2 z == inject_Z (2 ^ z).
Proof. intros z Hz. unfold pow2. rewrite Zpower_Qpower by exact Hz. reflexivity. Qed.

Lemma pow2_le : forall x y, (x <= y)%Z -> pow2 x <= pow2 y.
Proof. intros x y H. unfold pow2. apply Qpower_le_compat_l; [exact H|discriminate]. Qed.

Lemma pow2_lt_inv : forall x y, pow2 x < pow2 y -> (x < y)%Z.
Proof. intros x y H. unfold pow2 in H. apply Qpower_lt_compat_l_inv in H; [exact H|reflexivity]. Qed.

Lemma pow2_pos : forall z, 0 < pow2 z.
Proof. intro z. unfold pow2. apply Qpower_0_lt. reflexivity. Qed.

Lemma Qlog2_floor_le : forall a, 0 < a -> pow2 (Qlog2_floor a) <= a.
Proof.
  intros [n d] Ha. unfold Qlog2_floor. cbn [Qnum Qden].
  set (k := (Z.log2 n - Z.log2 (Z.pos d))%Z).
  destruct (Qle_bool (pow2 k) (n # d)) eqn:E; [apply Qle_bool_iff; exact E|]. clear E.
  assert (Hn : (0 < n)%Z) by (unfold Qlt in Ha; simpl in Ha; lia).
  destruct (Z.log2_spec n Hn) as [Hn1 _].
  destruct (Z.log2_spec (Z.pos d) eq_refl) as [_ Hd2].
  pose proof (Z.log2_nonneg n) as Hln. pose proof (Z.log2_nonneg (Z.pos d)) as Hld.
  set (ln := Z.log2 n) in *. set (ld := Z.log2 (Z.pos d)) in *.
  assert (HT : 0 < pow2 (ld + 1)) by apply pow2_pos.
  apply (Qmult_le_r _ _ (pow2 (ld + 1)) HT).
  assert (E1 : pow2 (k - 1) * pow2 (ld + 1) == inject_Z (2 ^ ln)).
  { rewrite <- pow2_add. unfold k. replace (ln - ld - 1 + (ld + 1))%Z with ln by ring.
    apply pow2_Z, Hln. }
  rewrite E1, (pow2_Z (ld + 1)) by lia.
  apply Qle_trans with (inject_Z n).
  - rewrite <- Zle_Qle. exact Hn1.
  - rewrite Z.add_1_r. 
    assert (E2 : inject_Z n == (n # d) * inject_Z (Z.pos d)).
    { unfold Qeq, Qmult, inject_Z. simpl. lia. }
    rewrite E2. apply Qmult_le_l; [exact Ha|]. rewrite <- Zle_Qle. lia.
Qed.

Lemma round_half_even_near : forall x, Qabs (inject_Z (round_half_even x) - x) <= 1 # 2.
Proof.
  intro x. unfold round_half_even.
  pose proof (Qfloor_le x) as H1. pose proof (Qlt_floor x) as H2.
  rewrite inject_Z_plus in H2. change (inject_Z 1) with 1 in H2. set (m0 := Qfloor x) in *.
  apply Qabs_Qle_condition.
  destruct (Qeq_bool (x - inject_Z m0) (1 # 2)) eqn:E.
  - apply Qeq_bool_iff in E.
    destruct (Z.even m0); [|rewrite inject_Z_plus]; change (inject_Z 1) with 1 in *; split; Lqa.lra.
  - destruct (Qle_bool (x - inject_Z m0) (1 # 2)) eqn:E'.
    + apply Qle_bool_iff in E'. split; Lqa.lra.
    + rewrite inject_Z_plus. change (inject_Z 1) with 1 in *.
      assert (E'' : ~ (x - inject_Z m0 <= 1 # 2)) by (intro F; apply Qle_bool_iff in F; congruence).
      apply Qnot_le_lt in E''. split; Lqa.lra.
Qed.

Lemma round64_near : forall q, Qabs q < pow2 1000 ->
  exists v, round64 q = Fin v /\ Qabs (v - q) <= Qabs q / pow2 52 + pow2 (-1074).
Proof.
  intros q Hq. unfold round64.
  pose proof (pow2_pos (-1074)) as Ht.
  assert (Hrhs : 0 <= Qabs q / pow2 52).
  { apply Qle_shift_div_l; [apply pow2_pos|]. rewrite Qmult_0_l. apply Qabs_nonneg. }
  destruct (Qeq_bool q 0) eqn:E0.
  { exists 0. split; [reflexivity|]. apply Qeq_bool_iff in E0.
    assert (Z0 : Qabs (0 - q) == 0) by (rewrite E0; reflexivity). Lqa.lra. }
  assert (Ha : 0 < Qabs q).
  { destruct (Qlt_le_dec 0 (Qabs q)) as [H|H]; [exact H|].
    exfalso. apply Qabs_Qle_condition in H as [H1 H2].
    assert (Z0 : q == 0) by Lqa.lra. apply Qeq_bool_iff in Z0. congruence. }
  cbv zeta.
  set (a := Qabs q) in *.
  set (L := Qlog2_floor a).
  pose proof (Qlog2_floor_le a Ha) as HL. fold L in HL.
  assert (HL1000 : (L < 1000)%Z) by (apply pow2_lt_inv; exact (Qle_lt_trans _ _ _ HL Hq)).
  set (e := Z.max (L - 52) (-1074)).
  pose proof (pow2_pos e) as He.
  set (x := a / pow2 e).
  assert (Hx : x * pow2 e == a) by (unfold x; field; apply Qnot_eq_sym, Qlt_not_eq, He).
  set (m := round_half_even x).
  pose proof (round_half_even_near x) as Hm. fold m in Hm.
  set (w := inject_Z m * pow2 e).
  assert (Hw : Qabs (w - a) <= (1 # 2) * pow2 e).
  { assert (E : w - a == (inject_Z m - x) * pow2 e) by (unfold w; rewrite <- Hx; ring).
    rewrite E, Qabs_Qmult, (Qabs_pos (pow2 e)) by (apply Qlt_le_weak, He).
    apply Qmult_le_compat_r; [exact Hm|apply Qlt_le_weak, He]. }
  assert (Hhalf : (1 # 2) * pow2 e <= a / pow2 52 + pow2 (-1074)).
  { unfold e. destruct (Z.max_spec (L - 52) (-1074)) as [[_ ->]|[_ ->]].
    - Lqa.lra.
    - assert (Hp : pow2 (L - 52) * pow2 52 <= a).
      { rewrite <- pow2_add. replace (L - 52 + 52)%Z with L by ring. exact HL. }
      assert (Hp' : pow2 (L - 52) <= a / pow2 52).
      { apply Qle_shift_div_l; [apply pow2_pos|exact Hp]. }
      pose proof (pow2_pos (L - 52)). Lqa.lra. }
  assert (He1000 : pow2 e <= pow2 1000).
  { apply pow2_le. unfold e. lia. }
  assert (Hw1024 : Qle_bool (pow2 1024) (Qred w) = false).
  { apply not_true_iff_false. intro F. apply Qle_bool_iff in F. rewrite Qred_correct in F.
    apply Qabs_Qle_condition in Hw as [_ Hw2].
    assert (H1001 : pow2 1000 + pow2 1000 <= pow2 1024).
    { setoid_replace (pow2 1000 + pow2 1000) with (pow2 1001).
      - apply pow2_le. lia.
      - replace 1001%Z with (1000 + 1)%Z by reflexivity. rewrite pow2_add.
        setoid_replace (pow2 1) with 2 by reflexivity. ring. }
    Lqa.lra. }
  rewrite Hw1024.
  destruct (Qle_bool 0 q) eqn:Es.
  - exists (Qred w). split; [reflexivity|].
    apply Qle_bool_iff in Es.
    assert (Eaq : a == q) by (unfold a; apply Qabs_pos, Es).
    rewrite Qred_correct. rewrite <- Eaq. Lqa.lra.
  - exists (Qred (- Qred w)). split; [reflexivity|].
    assert (Es' : q <= 0).
    { destruct (Qlt_le_dec 0 q) as [H|H]; [|exact H].
      exfalso. apply Qlt_le_weak, Qle_bool_iff in H. congruence. }
    assert (Eaq : a == - q) by (unfold a; apply Qabs_neg, Es').
    rewrite !Qred_correct.
    setoid_replace (- w - q) with (- (w - a)) by (rewrite Eaq; ring).
    rewrite Qabs_opp. Lqa.lra.
Qed.

Lemma round64_coarse : forall q, Qabs q <= 1000000000000000 ->
  exists v, round64 q = Fin v /\ Qabs (v - q) <= (1 # 1000) * Qabs q + (1 # 1000).
Proof.
  intros q Hq.
  assert (Hp : 1000000000000000 < pow2 1000) by (apply Qlt_alt; vm_compute; reflexivity).
  destruct (round64_near q ltac:(Lqa.lra)) as (v & Ev & Hv).
  exists v. split; [exact Ev|].
  assert (H52 : Qabs q / pow2 52 <= (1 # 1000) * Qabs q).
  { unfold Qdiv. rewrite (Qmult_comm (Qabs q)). apply Qmult_le_compat_r; [|apply Qabs_nonneg].
    apply Qle_bool_iff; vm_compute; reflexivity. }
  assert (H1074 : pow2 (-1074) <= 1 # 1000) by (apply Qle_bool_iff; vm_compute; reflexivity).
  Lqa.lra.
Qed.

Lemma f_mul_fin : forall x y, f_mul (Fin x) (Fin y) = round64 (x * y).
Proof. reflexivity. Qed.

Lemma f_div_fin : forall x y, ~ y == 0 -> f_div (Fin x) (Fin y) = round64 (x / y).
Proof.
  intros x y Hy. unfold f_div, num_div.
  destruct (Qeq_bool y 0) eqn:E; [apply Qeq_bool_iff in E; contradiction|reflexivity].
Qed.

Lemma Math_round_near : forall t, exists z,
  Math_round (Fin t) = Fin (inject_Z z) /\ Qabs (inject_Z z - t) <= 1 # 2.
Proof.
  intro t. exists (Qfloor (t + (1 # 2))). split; [reflexivity|].
  pose proof (Qfloor_le (t + (1 # 2))) as H1. pose proof (Qlt_floor (t + (1 # 2))) as H2.
  rewrite inject_Z_plus in H2. change (inject_Z 1) with 1 in H2.
  apply Qabs_Qle_condition. split; Lqa.lra.
Qed.

Lemma Qabs_cases : forall t, (0 <= t /\ Qabs t == t) \/ (t <= 0 /\ Qabs t == - t).
Proof.
  intro t. destruct (Qlt_le_dec 0 t) as [H|H].
  - left. split; [Lqa.lra|apply Qabs_pos; Lqa.lra].
  - right. split; [exact H|apply Qabs_neg, H].
Qed.

Ltac qabs_bounds :=
  repeat match goal with
  | H : Qabs _ <= _ |- _ => apply Qabs_Qle_condition in H; destruct H
  end;
  try (apply Qabs_Qle_condition; split);
  repeat match goal with
  | |- context [Qabs ?t] =>
      let a := fresh "a" in
      destruct (Qabs_cases t) as [[? ?]|[? ?]]; set (a := Qabs t) in *
  | H : context [Qabs ?t] |- _ =>
      let a := fresh "a" in
      destruct (Qabs_cases t) as [[? ?]|[? ?]]; set (a := Qabs t) in *
  end.

(** [Math.round(x * m) / m] for [m] 10, 100 or 1000, on doubles. *)
Lemma round_scaled_near : forall x m, (m = 10 \/ m = 100 \/ m = 1000) ->
  Qabs x <= 1000000000 ->
  exists v, f_div (Math_round (f_mul (Fin x) (Fin m))) (Fin m) = Fin v /\
            Qabs (v - x) <= (1 # 100) * Qabs x + 1.
Proof.
  intros x m Hm Hx.
  rewrite f_mul_fin.
  destruct (round64_coarse (x * m)) as (t2 & E2 & H2).
  { destruct Hm as [->|[->| ->]]; qabs_bounds; Lqa.lra. }
  rewrite E2.
  destruct (Math_round_near t2) as (z & E3 & H3). rewrite E3.
  rewrite f_div_fin by (destruct Hm as [->|[->| ->]]; discriminate).
  set (t3 := inject_Z z) in *.
  set (y := t3 / m).
  assert (Ey : t3 == y * m)
    by (unfold y; field; destruct Hm as [->|[->| ->]]; discriminate).
  destruct (round64_coarse y) as (v & E4 & H4).
  { destruct Hm as [->|[->| ->]]; qabs_bounds; Lqa.lra. }
  exists v. split; [exact E4|].
  destruct Hm as [->|[->| ->]]; qabs_bounds; Lqa.lra.
Qed.

(** ** C8: Pearson correlation *)

Lemma f_add_nonfin_l : forall a b, finite_num a = false -> finite_num (f_add a b) = false.
Proof. intros [x| | |] [y| | |] H; try discriminate H; reflexivity. Qed.

Lemma f_add_nonfin_r : forall a b, finite_num b = false -> finite_num (f_add a b) = false.
Proof. intros [x| | |] [y| | |] H; try discriminate H; reflexivity. Qed.

Lemma fold_f_add_nonfin : forall (f : num * num -> num) l s,
  (finite_num s = false \/ exists p, In p l /\ finite_num (f p) = false) ->
  finite_num (fold_left (fun sum p => f_add sum (f p)) l s) = false.
Proof.
  intros f l; induction l as [|p l IH]; intros s H; simpl.
  - destruct H as [H|(p & [] & _)]. exact H.
  - apply IH. destruct H as [H|(q & [<-|Hq] & Hf)].
    + left. apply f_add_nonfin_l, H.
    + left. apply f_add_nonfin_r, Hf.
    + right. exists q. split; assumption.
Qed.

(** A value [0 <= v], [Infinity] or NaN: never [-Infinity]. *)
Definition not_below_zero (v : num) : Prop :=
  match v with Fin q => 0 <= q | NInf => False | _ => True end.

Lemma round_half_even_nonneg : forall x, 0 <= x -> (0 <= round_half_even x)%Z.
Proof.
  intros x Hx. unfold round_half_even.
  assert (H0 : (0 <= Qfloor x)%Z).
  { assert (Hf : (Qfloor 0 <= Qfloor x)%Z) by (apply Qfloor_resp_le, Hx). exact Hf. }
  destruct (Qeq_bool _ _); [destruct (Z.even _)|destruct (Qle_bool _ _)]; lia.
Qed.

Lemma round64_not_below_zero : forall q, 0 <= q -> not_below_zero (round64 q).
Proof.
  intros q Hq. unfold round64.
  destruct (Qeq_bool q 0); [simpl; apply Qle_refl|]. cbv zeta.
  assert (Hs : Qle_bool 0 q = true) by (apply Qle_bool_iff, Hq).
  destruct (Qle_bool (pow2 1024) _); [rewrite Hs; exact I|]. rewrite Hs.
  unfold not_below_zero. rewrite Qred_correct. apply Qmult_le_0_compat.
  - change 0 with (inject_Z 0). rewrite <- Zle_Qle. apply round_half_even_nonneg.
    apply Qle_shift_div_l; [apply pow2_pos|]. rewrite Qmult_0_l. apply Qabs_nonneg.
  - apply Qlt_le_weak, pow2_pos.
Qed.

Lemma f_mul_self_not_below_zero : forall a, not_below_zero (f_mul a a).
Proof.
  intros [x| | |]; try exact I.
  apply round64_not_below_zero.
  destruct (Qlt_le_dec x 0) as [Hn|Hp].
  - setoid_replace (x * x) with ((- x) * (- x)) by ring.
    apply Qmult_le_0_compat; Lqa.lra.
  - apply Qmult_le_0_compat; Lqa.lra.
Qed.

Lemma f_add_not_below_zero : forall a b,
  not_below_zero a -> not_below_zero b -> not_below_zero (f_add a b).
Proof.
  intros [x| | |] [y| | |] Ha Hb; simpl in *; try contradiction; try exact I.
  apply round64_not_below_zero. Lqa.lra.
Qed.

Lemma fold_not_below_zero : forall (f : num * num -> num) l s,
  not_below_zero s -> (forall p, not_below_zero (f p)) ->
  not_below_zero (fold_left (fun sum p => f_add sum (f p)) l s).
Proof.
  intros f l; induction l as [|p l IH]; intros s Hs Hf; simpl; [exact Hs|].
  apply IH; [apply f_add_not_below_zero|]; auto.
Qed.

(** With a non-finite value among its [n >= 1] pairs, the variance term
    [n * sumXX - sumX * sumX] of a variable is NaN. *)
Lemma variance_term_NaN : forall (x : num * num -> num) P,
  (0 < length P)%nat ->
  (exists p, In p P /\ finite_num (x p) = false) ->
  f_sub (f_mul (num_of_nat (length P)) (sum_by (fun p => f_mul (x p) (x p)) P))
        (f_mul (sum_by x P) (sum_by x P)) = NaN.
Proof.
  intros x P Hn (p & Hp & Hx).
  assert (HX : finite_num (sum_by x P) = false)
    by (apply fold_f_add_nonfin; right; exists p; auto).
  assert (HXX : finite_num (sum_by (fun p => f_mul (x p) (x p)) P) = false).
  { apply fold_f_add_nonfin. right. exists p. split; [exact Hp|].
    destruct (x p); try discriminate Hx; reflexivity. }
  assert (HXX' : not_below_zero (sum_by (fun p => f_mul (x p) (x p)) P)).
  { apply fold_not_below_zero; [simpl; apply Qle_refl|]. intro q. apply f_mul_self_not_below_zero. }
  assert (Hpos : Qeq_bool (inject_Z (Z.of_nat (length P))) 0 = false /\
                 Qle_bool (inject_Z (Z.of_nat (length P))) 0 = false).
  { split; apply not_true_iff_false; intro E;
      [apply Qeq_bool_iff in E|apply Qle_bool_iff in E];
      [unfold Qeq in E|unfold Qle in E]; simpl in E; lia. }
  destruct Hpos as [H1 H2].
  unfold num_of_nat.
  destruct (sum_by (fun p => f_mul (x p) (x p)) P) as [s| | |];
    try discriminate HXX; try contradiction HXX';
  destruct (sum_by x P) as [t| | |]; try discriminate HX;
  unfold f_sub, f_mul, js_round, num_sub, num_mul, num_add, num_neg, num_sign;
  cbv beta iota; rewrite ?H1, ?H2; reflexivity.
Qed.

Lemma Math_sqrt_NaN_mul_l : forall a, Math_sqrt (f_mul NaN a) = NaN.
Proof. intros [x| | |]; reflexivity. Qed.

Lemma Math_sqrt_NaN_mul_r : forall a, Math_sqrt (f_mul a NaN) = NaN.
Proof. intros [x| | |]; reflexivity. Qed.

Lemma f_div_NaN_r : forall a, f_div a NaN = NaN.
Proof. intros [x| | |]; reflexivity. Qed.




(** ** C3: reproducibility of the generated dataset *)

Module GeneratorFacts.

Import Generator.
Local Open Scope R_scope.

Lemma risk_bounds : forall age income education employment,
  0 < getDefaultRiskByProfile age income education employment <= 0.5.
Proof.
  intros. unfold getDefaultRiskByProfile. apply Rmin_half_bounds.
  repeat match goal with |- context [if ?c then _ else _] => destruct c end; lra.
Qed.

Lemma wp_bind : forall {A B} (m : Rand A) (k : A -> Rand B) d i Q,
  wp m d i (fun a j => wp (k a) d j Q) -> wp (bind m k) d i Q.
Proof. intros A B m k d i Q. unfold wp, bind. destruct (m d i) as [[a j]|]; auto. Qed.

Lemma wp_ret : forall {A} (a : A) d i Q, Q a i -> wp (ret a) d i Q.
Proof. intros. exact H. Qed.

Lemma wp_random : forall d i Q, Q (d i) (S i) -> wp Math_random d i Q.
Proof. intros. exact H. Qed.

Lemma wp_mono : forall {A} (m : Rand A) d i (P Q : A -> nat -> Prop),
  wp m d i P -> (forall a j, P a j -> Q a j) -> wp m d i Q.
Proof. intros A m d i P Q. unfold wp. destruct (m d i) as [[a j]|]; auto. Qed.

Lemma wp_some : forall {A} (m : Rand A) d i Q,
  wp m d i Q -> exists a j, m d i = Some (a, j) /\ Q a j.
Proof. intros A m d i Q. unfold wp. destruct (m d i) as [[a j]|]; [eauto|contradiction]. Qed.

Lemma floor_index : forall x (n : nat), 0 <= x < 1 -> (0 < n)%nat ->
  (0 <= Math_floor_R (x * INR n))%Z /\ (Z.to_nat (Math_floor_R (x * INR n)) < n)%nat.
Proof.
  intros x n Hx Hn. unfold Math_floor_R.
  destruct (base_Int_part (x * INR n)) as [H1 H2].
  assert (Hpos : 0 < INR n) by (apply lt_0_INR; exact Hn).
  assert (0 <= x * INR n) by (apply Rmult_le_pos; lra).
  assert (x * INR n < INR n) by nra.
  assert (Hlo : (-1 < Int_part (x * INR n))%Z) by (apply lt_IZR; simpl; lra).
  assert (Hhi : (Int_part (x * INR n) < Z.of_nat n)%Z)
    by (apply lt_IZR; rewrite <- INR_IZR_INZ; lra).
  split; lia.
Qed.

Lemma wp_pick : forall {A} (xs : list A) d i Q,
  draws_ok d -> xs <> [] -> (forall x, Q x (S i)) -> wp (pick xs) d i Q.
Proof.
  intros A xs d i Q Hd Hne HQ. unfold pick. apply wp_bind, wp_random. cbv beta zeta.
  destruct (floor_index (d i) (length xs) (Hd i)) as [H0 Hlt].
  { destruct xs; [congruence|simpl; lia]. }
  apply Z.leb_le in H0. rewrite H0.
  destruct (nth_error xs _) eqn:E; [apply wp_ret, HQ|].
  apply nth_error_None in E. lia.
Qed.

Lemma wp_randomAge : forall d i Q,
  draws_ok d -> (forall z, Q z (S (S i))) -> wp randomAge d i Q.
Proof.
  intros d i Q Hd HQ. unfold randomAge. apply wp_bind.
  change (randomAge_loop 1000) with (randomAge_loop (S 999)). cbn [randomAge_loop].
  apply wp_bind, wp_random, wp_bind, wp_random. cbv beta zeta.
  pose proof (Hd i). pose proof (Hd (S i)).
  destruct (Rlt_dec _ 18); [exfalso; lra|]. destruct (Rgt_dec _ 80); [exfalso; lra|].
  apply wp_ret, wp_ret, HQ.
Qed.

(** One step of a run, chosen by the head of the program. *)
Ltac wp_step Hd :=
  cbv beta zeta;
  lazymatch goal with
  | |- wp (pick _) _ _ _ => apply wp_pick; [exact Hd | discriminate | intro]
  | |- wp randomAge _ _ _ => apply wp_randomAge; [exact Hd | intro]
  | |- wp Math_random _ _ _ => apply wp_random
  | |- wp (ret _) _ _ _ => apply wp_ret
  | |- wp (bind _ _) _ _ _ => apply wp_bind
  | |- wp (if ?c then _ else _) _ _ _ => destruct c; try (exfalso; lra)
  end.

Lemma generate_record_runs : forall d i j,
  draws_ok d -> wp (generate_record i) d j (fun _ _ => True).
Proof.
  intros d i j Hd. unfold generate_record, randomIncome, randomCredit.
  repeat wp_step Hd; exact I.
Qed.

Lemma gen_from_runs : forall d count start j,
  draws_ok d -> wp (gen_from start count) d j (fun _ _ => True).
Proof.
  intros d count; induction count as [|count IH]; intros start j Hd; simpl.
  - exact I.
  - apply wp_bind. apply (wp_mono _ _ _ _ _ (generate_record_runs d start j Hd)).
    intros r j' _. apply wp_bind.
    apply (wp_mono _ _ _ _ _ (IH (S start) j' Hd)). intros. exact I.
Qed.

(** The first record of a run from position 0 reads its target at draw 8
    when the employment draw 7 is at most 0.1. *)
Lemma first_record_target : forall d i,
  draws_ok d -> d 7%nat <= 0.1 ->
  wp (generate_record i) d 0
     (fun r _ => (d 8%nat = 0 -> TARGET r = T1) /\ (/ 2 < d 8%nat -> TARGET r = T0)).
Proof.
  intros d i Hd H7. unfold generate_record, randomIncome, randomCredit.
  repeat wp_step Hd.
  all: cbv beta; cbn [TARGET];
    match goal with |- context [getDefaultRiskByProfile ?a ?b ?c ?e] =>
      pose proof (risk_bounds a b c e) end;
    split; intro H8; destruct (Rlt_dec _ _); try reflexivity; exfalso; lra.
Qed.

Lemma targets_pipeline : forall rs,
  map TARGET (addIncomeBrackets (preprocessData rs)) = map TARGET rs.
Proof.
  intro rs. unfold addIncomeBrackets, preprocessData. cbv zeta.
  rewrite !map_map. apply map_ext. intro. reflexivity.
Qed.

Lemma first_target_dataset : forall d count,
  draws_ok d -> d 7%nat <= 0.1 ->
  wp (generateCompleteDataset (S count)) d 0
     (fun out _ => (d 8%nat = 0 -> head (map TARGET out) = Some T1) /\
                   (/ 2 < d 8%nat -> head (map TARGET out) = Some T0)).
Proof.
  intros d count Hd H7. unfold generateCompleteDataset, generateSyntheticData.
  apply wp_bind. simpl gen_from. apply wp_bind.
  apply (wp_mono _ _ _ _ _ (first_record_target d 0 Hd H7)).
  intros r j [HT1 HT0]. apply wp_bind.
  apply (wp_mono _ _ _ _ _ (gen_from_runs d count 1 j Hd)).
  intros rs j' _. apply wp_ret. apply wp_ret. cbv zeta.
  rewrite targets_pipeline. simpl. split; intro H8; f_equal; auto.
Qed.

Lemma respects_ret : forall {A} (a : A), respects (ret a).
Proof. intros A a d d' _ i. reflexivity. Qed.

Lemma respects_fail : forall {A}, respects (@fail A).
Proof. intros A d d' _ i. reflexivity. Qed.

Lemma respects_random : respects Math_random.
Proof. intros d d' H i. unfold Math_random. now rewrite H. Qed.

Lemma respects_bind : forall {A B} (m : Rand A) (k : A -> Rand B),
  respects m -> (forall a, respects (k a)) -> respects (bind m k).
Proof.
  intros A B m k Hm Hk d d' H i. unfold bind. rewrite (Hm d d' H i).
  destruct (m d' i) as [[a j]|]; [apply Hk, H|reflexivity].
Qed.

Ltac respects_step :=
  cbv beta zeta;
  lazymatch goal with
  | |- respects (ret _) => apply respects_ret
  | |- respects fail => apply respects_fail
  | |- respects Math_random => apply respects_random
  | |- respects (bind _ _) => apply respects_bind; [|intro]
  | |- respects (if ?c then _ else _) => destruct c
  | |- respects (match ?c with _ => _ end) => destruct c
  end.

Lemma respects_pick : forall {A} (xs : list A), respects (pick xs).
Proof. intros. unfold pick. repeat respects_step. Qed.

Lemma respects_randomAge_loop : forall fuel, respects (randomAge_loop fuel).
Proof.
  induction fuel as [|fuel IH]; simpl; [apply respects_fail|].
  repeat (first [exact IH | respects_step]).
Qed.

Lemma respects_generate_record : forall i, respects (generate_record i).
Proof.
  intro i. unfold generate_record, randomAge, randomIncome, randomCredit.
  repeat (first [apply respects_pick | apply respects_randomAge_loop | respects_step]).
Qed.

Lemma respects_gen_from : forall n start, respects (gen_from start n).
Proof.
  induction n as [|n IH]; intro start; simpl.
  - apply respects_ret.
  - apply respects_bind; [apply respects_generate_record|intro r].
    apply respects_bind; [apply IH|intro rs]. apply respects_ret.
Qed.

Lemma draws_zero_ok : draws_ok draws_zero.
Proof. intro k. unfold draws_zero. lra. Qed.

Lemma draws_high_target_ok : draws_ok draws_high_target.
Proof. intro k. unfold draws_high_target. destruct (Nat.eqb k 8); lra. Qed.

(** C3 (counterexample): [generateCompleteDataset] takes no seed. Two runs
    with the same record count, reading different values of [Math.random()]
    (all in [[0, 1)]), produce different target sequences. *)
Lemma generateCompleteDataset_runs_differ :
  option_map (fun res => head (map TARGET (fst res))) (generateCompleteDataset 1%nat draws_zero 0%nat)
    = Some (Some T1) /\
  option_map (fun res => head (map TARGET (fst res))) (generateCompleteDataset 1%nat draws_high_target 0%nat)
    = Some (Some T0).
Proof.
  split.
  - assert (H7 : draws_zero 7%nat <= 0.1) by (unfold draws_zero; lra).
    destruct (wp_some _ _ _ _ (first_target_dataset draws_zero 0 draws_zero_ok H7))
      as (out & j & E & H1 & _).
    rewrite E. simpl. rewrite H1; [reflexivity|]. reflexivity.
  - assert (H7 : draws_high_target 7%nat <= 0.1) by (unfold draws_high_target; simpl; lra).
    destruct (wp_some _ _ _ _ (first_target_dataset draws_high_target 0 draws_high_target_ok H7))
      as (out & j & E & _ & H0).
    rewrite E. simpl. rewrite H0; [reflexivity|]. unfold draws_high_target. simpl. lra.
Qed.

(** C3 (amended): the dataset is a function of the values [Math.random()]
    returns: runs reading the same values give identical records. The
    program has no seed, and for every record count [n >= 1] there are two
    sequences of values in [[0, 1)] on which the run succeeds and the first
    record's target differs. *)
Theorem generateCompleteDataset_draws : forall n,
  (forall d d' i, (forall k, d k = d' k) ->
     generateCompleteDataset n d i = generateCompleteDataset n d' i) /\
  ((1 <= n)%nat -> exists d d' out out' j j',
     draws_ok d /\ draws_ok d' /\
     generateCompleteDataset n d 0%nat = Some (out, j) /\
     generateCompleteDataset n d' 0%nat = Some (out', j') /\
     head (map TARGET out) = Some T1 /\ head (map TARGET out') = Some T0).
Proof.
  intro n. split.
  - intros d d' i H. unfold generateCompleteDataset, generateSyntheticData.
    exact (respects_bind _ _ (respects_gen_from n 0) (fun raw => respects_ret _) d d' H i).
  - intro Hn. destruct n as [|count]; [lia|].
    assert (H7 : draws_zero 7%nat <= 0.1) by (unfold draws_zero; lra).
    assert (H7' : draws_high_target 7%nat <= 0.1) by (unfold draws_high_target; simpl; lra).
    destruct (wp_some _ _ _ _ (first_target_dataset draws_zero count draws_zero_ok H7))
      as (out & j & E & H1 & _).
    destruct (wp_some _ _ _ _ (first_target_dataset draws_high_target count draws_high_target_ok H7'))
      as (out' & j' & E' & _ & H0).
    exists draws_zero, draws_high_target, out, out', j, j'.
    refine (conj draws_zero_ok (conj draws_high_target_ok (conj E (conj E' (conj _ _))))).
    + apply H1. reflexivity.
    + apply H0. unfold draws_high_target. simpl. lra.
Qed.

Lemma generateCompleteDataset_draws_witness :
  generateCompleteDataset 3%nat draws_zero 0%nat = generateCompleteDataset 3%nat (fun k => draws_zero k) 0%nat /\
  (1 <= 3)%nat /\
  exists d d' out out' j j',
     draws_ok d /\ draws_ok d' /\
     generateCompleteDataset 3%nat d 0%nat = Some (out, j) /\
     generateCompleteDataset 3%nat d' 0%nat = Some (out', j') /\
     head (map TARGET out) = Some T1 /\ head (map TARGET out') = Some T0.
Proof.
  split; [apply (proj1 (generateCompleteDataset_draws 3%nat)); intro; reflexivity|].
  split; [lia|]. apply (proj2 (generateCompleteDataset_draws 3%nat)). lia.
Defined.

End GeneratorFacts.

(** ** Objects used as maps *)

Lemma obj_get_set : forall {V} (o : list (string * V)) k v k',
  obj_get (obj_set o k v) k' = if String.eqb k' k then Some v else obj_get o k'.
Proof.
  intros V o k v k'. induction o as [|[k0 v0] o IH]; simpl.
  - destruct (String.eqb k' k); reflexivity.
  - destruct (String.eqb_spec k k0) as [<-|Hne]; simpl.
    + destruct (String.eqb k' k); reflexivity.
    + rewrite IH. destruct (String.eqb_spec k' k0) as [->|Hne'].
      * destruct (String.eqb_spec k0 k); [congruence|reflexivity].
      * reflexivity.
Qed.

Lemma obj_set_keys : forall {V} (o : list (string * V)) k v k',
  In k' (map fst (obj_set o k v)) <-> k' = k \/ In k' (map fst o).
Proof.
  intros V o k v k'. induction o as [|[k0 v0] o IH]; simpl.
  - intuition congruence.
  - destruct (String.eqb_spec k k0) as [<-|Hne]; simpl; [intuition congruence|].
    rewrite IH. intuition congruence.
Qed.

Lemma obj_set_nodup : forall {V} (o : list (string * V)) k v,
  NoDup (map fst o) -> NoDup (map fst (obj_set o k v)).
Proof.
  intros V o k v. induction o as [|[k0 v0] o IH]; simpl; intro H.
  - constructor; [intros []|constructor].
  - inversion H as [|? ? Hni Hnd]; subst.
    destruct (String.eqb_spec k k0) as [<-|Hne]; simpl; constructor; auto.
    rewrite obj_set_keys. intros [->|Hin]; [congruence|contradiction].
Qed.

Lemma obj_get_in : forall {V} (o : list (string * V)) k v,
  NoDup (map fst o) -> (obj_get o k = Some v <-> In (k, v) o).
Proof.
  intros V o k v. induction o as [|[k0 v0] o IH]; simpl; intro H.
  - split; [discriminate|intros []].
  - inversion H as [|? ? Hni Hnd]; subst.
    destruct (String.eqb_spec k k0) as [->|Hne]; split.
    + intro E; injection E as ->; left; reflexivity.
    + intros [E|Hin]; [injection E as ->; reflexivity|].
      exfalso; apply Hni, (in_map fst _ _ Hin).
    + intro E; right; apply IH; assumption.
    + intros [E|Hin]; [injection E; congruence|apply IH; assumption].
Qed.

Lemma obj_get_none : forall {V} (o : list (string * V)) k,
  obj_get o k = None <-> ~ In k (map fst o).
Proof.
  intros V o k. induction o as [|[k0 v0] o IH]; simpl; [tauto|].
  destruct (String.eqb_spec k k0) as [->|Hne]; split.
  - discriminate.
  - intro H; exfalso; apply H; left; reflexivity.
  - intros E [E'|Hin]; [congruence|apply IH; assumption].
  - intro H; apply IH; tauto.
Qed.

Lemma group_reduce_acc : forall {V} (update : option V -> HomeCreditRecord -> V) field data o0,
  (forall r, In r data -> inherited_key (field r) = false) ->
  exists o, fold_left (own_update update field) data (Some o0) = Some o /\
    (NoDup (map fst o0) -> NoDup (map fst o)) /\
    forall k, obj_get o k =
      fold_left (fun acc r => Some (update acc r)) (filter (fun r => String.eqb (field r) k) data) (obj_get o0 k).
Proof.
  intros V update field data. induction data as [|r data IH]; intros o0 Hk; simpl.
  - exists o0. auto.
  - rewrite (Hk r (or_introl eq_refl)).
    destruct (IH (obj_set o0 (field r) (update (obj_get o0 (field r)) r)))
      as (o & E & Hnd & Hget); [intros; apply Hk; right; assumption|].
    exists o. split; [exact E|split].
    + intro H. apply Hnd, obj_set_nodup, H.
    + intro k. rewrite Hget, obj_get_set.
      destruct (String.eqb_spec k (field r)) as [->|Hne].
      * rewrite String.eqb_refl. reflexivity.
      * destruct (String.eqb_spec (field r) k); [congruence|reflexivity].
Qed.

Lemma group_reduce_spec : forall {V} (update : option V -> HomeCreditRecord -> V) field data,
  (forall r, In r data -> inherited_key (field r) = false) ->
  exists o, group_reduce update field data = Some o /\ NoDup (map fst o) /\
    forall k, obj_get o k =
      fold_left (fun acc r => Some (update acc r)) (filter (fun r => String.eqb (field r) k) data) None.
Proof.
  intros V update field data Hk. unfold group_reduce.
  destruct (group_reduce_acc update field data [] Hk) as (o & E & Hnd & Hget).
  exists o. split; [exact E|split; [apply Hnd; constructor|exact Hget]].
Qed.

Lemma filter_partition_perm : forall {A} (p : A -> bool) l,
  Permutation (filter p l ++ filter (fun x => negb (p x)) l) l.
Proof.
  intros A p l. induction l as [|x l IH]; simpl; [constructor|].
  destruct (p x); simpl.
  - constructor. exact IH.
  - rewrite <- Permutation_middle. constructor. exact IH.
Qed.

Lemma insert_by_index_perm : forall {V} (x : N * (string * V)) l,
  Permutation (insert_by_index x l) (x :: l).
Proof.
  intros V x l. induction l as [|y l IH]; simpl; [reflexivity|].
  destruct (N.ltb _ _); [reflexivity|].
  rewrite IH. constructor.
Qed.

Lemma object_entries_perm : forall {V} (o : list (string * V)), Permutation (object_entries o) o.
Proof.
  intros V o. unfold object_entries.
  set (p := fun kv : string * V => match array_index_key (fst kv) with Some _ => true | None => false end).
  assert (Hidx : Permutation
     (map snd (fold_right insert_by_index []
        (flat_map (fun kv => match array_index_key (fst kv) with
                             | Some n => [(n, kv)] | None => [] end) o)))
     (filter p o)).
  { induction o as [|kv o IH]; simpl; [constructor|].
    unfold p at 1. destruct (array_index_key (fst kv)) as [n|]; simpl; [|exact IH].
    rewrite (Permutation_map snd (insert_by_index_perm _ _)). simpl. constructor. exact IH. }
  rewrite Hidx.
  replace (filter (fun kv => match array_index_key (fst kv) with Some _ => false | None => true end) o)
    with (filter (fun x => negb (p x)) o)
    by (apply filter_ext; intro kv; unfold p; destruct (array_index_key (fst kv)); reflexivity).
  apply filter_partition_perm.
Qed.

Lemma stable_insert_perm : forall {A} after (x : A) l, Permutation (stable_insert after x l) (x :: l).
Proof.
  intros A after x l. induction l as [|y l IH]; simpl; [reflexivity|].
  destruct (after x y); [|reflexivity].
  rewrite IH. constructor.
Qed.

Lemma stable_sort_perm : forall {A} after (l : list A), Permutation (stable_sort after l) l.
Proof.
  intros A after l. induction l as [|x l IH]; simpl; [constructor|].
  rewrite stable_insert_perm. constructor. exact IH.
Qed.

(** Sortedness of the stable sort, for a comparator consistent with a
    relation on the elements satisfying [P]. *)
Lemma stable_insert_sorted : forall {A} (P : A -> Prop) (Rel : A -> A -> Prop) after,
  (forall x y, P x -> P y -> after x y = false -> Rel x y) ->
  (forall x y, P x -> P y -> after x y = true -> Rel y x) ->
  forall x l, P x -> Forall P l -> Sorted Rel l -> Sorted Rel (stable_insert after x l).
Proof.
  intros A P Rel after Hf Ht x l Px. induction l as [|y l IH]; intros Hl Hs; simpl.
  - constructor; constructor.
  - inversion Hl as [|? ? Py Hl']; subst.
    destruct (after x y) eqn:E.
    + apply Sorted_inv in Hs as [Hs Hhd]. constructor; [apply IH; assumption|].
      destruct l as [|z l]; simpl; [constructor; apply Ht; assumption|].
      inversion Hhd; subst. inversion Hl' as [|? ? Pz _]; subst.
      destruct (after x z); constructor; [assumption|apply Ht; assumption].
    + constructor; [exact Hs|constructor; apply Hf; assumption].
Qed.

Lemma stable_sort_sorted : forall {A} (P : A -> Prop) (Rel : A -> A -> Prop) after,
  (forall x y, P x -> P y -> after x y = false -> Rel x y) ->
  (forall x y, P x -> P y -> after x y = true -> Rel y x) ->
  forall l, Forall P l -> Sorted Rel (stable_sort after l).
Proof.
  intros A P Rel after Hf Ht l. induction l as [|x l IH]; intro Hl; simpl; [constructor|].
  inversion Hl; subst.
  apply (stable_insert_sorted P); auto.
  apply (Permutation_Forall (Permutation_sym (stable_sort_perm after l))). assumption.
Qed.

Lemma list_sum_perm : forall l l', Permutation l l' -> list_sum l = list_sum l'.
Proof.
  intros l l' H. induction H; simpl; try lia.
Qed.

Lemma fold_group_step : forall l n,
  fold_left (fun acc r => Some (group_step acc r)) l (Some n) = Some (n + length l)%nat.
Proof.
  induction l as [|r l IH]; intro n; simpl; [f_equal; lia|].
  rewrite IH. f_equal. lia.
Qed.

Lemma fold_group_step_none : forall l,
  fold_left (fun acc r => Some (group_step acc r)) l None =
  match l with [] => None | _ => Some (length l) end.
Proof. intros [|r l]; simpl; [reflexivity|]. apply fold_group_step. Qed.

Lemma obj_set_group_sum : forall (o : list (string * nat)) k r,
  list_sum (map snd (obj_set o k (group_step (obj_get o k) r))) = S (list_sum (map snd o)).
Proof.
  intros o k r. induction o as [|[k0 v0] o IH]; simpl; [reflexivity|].
  destruct (String.eqb_spec k k0) as [->|Hne]; simpl.
  - reflexivity.
  - rewrite IH. lia.
Qed.

Lemma group_reduce_sum : forall field data o0 o,
  fold_left (own_update group_step field) data (Some o0) = Some o ->
  list_sum (map snd o) = (list_sum (map snd o0) + length data)%nat.
Proof.
  intros field data. induction data as [|r data IH]; intros o0 o E; simpl in *.
  - injection E as ->. lia.
  - destruct (inherited_key (field r)).
    + exfalso. clear IH. induction data as [|r' data IHd]; simpl in E; [discriminate|exact (IHd E)].
    + rewrite (IH _ _ E), obj_set_group_sum. simpl. lia.
Qed.

Lemma filter_in_nonempty : forall {A} (p : A -> bool) l x,
  In x l -> p x = true -> filter p l <> [].
Proof.
  intros A p l x Hin Hp. induction l as [|y l IH]; [destruct Hin|].
  simpl. destruct Hin as [->|Hin]; [rewrite Hp; discriminate|].
  destruct (p y); [discriminate|auto].
Qed.

Lemma groupBy_spec : forall data field,
  (forall r, In r data -> inherited_key (field r) = false) ->
  exists rows, groupBy data field = Some rows /\
    NoDup (map key rows) /\
    (forall row, In row rows ->
       name row = key row /\ value row = count row /\ (0 < count row)%nat /\
       count row = length (filter (fun r => String.eqb (field r) (key row)) data)) /\
    (forall r, In r data -> exists row, In row rows /\ key row = field r) /\
    list_sum (map count rows) = length data.
Proof.
  intros data field Hk.
  destruct (group_reduce_spec group_step field data Hk) as (o & E & Hnd & Hget).
  unfold groupBy. rewrite E.
  set (mk := fun kv : string * nat => mkGroupRow (fst kv) (snd kv) (fst kv) (snd kv)).
  set (after := fun a b : GroupRow => Nat.ltb (count a) (count b)).
  assert (HP : Permutation (stable_sort after (map mk (object_entries o))) (map mk o)).
  { rewrite stable_sort_perm. apply Permutation_map, object_entries_perm. }
  eexists. split; [reflexivity|]. split; [|split; [|split]].
  - apply (Permutation_NoDup (Permutation_map key (Permutation_sym HP))).
    rewrite map_map. exact Hnd.
  - intros row Hin. apply (Permutation_in _ HP), in_map_iff in Hin as ([k c] & <- & Hin).
    simpl. refine (conj eq_refl (conj eq_refl _)).
    apply (obj_get_in o k c Hnd) in Hin. rewrite Hget, fold_group_step_none in Hin.
    destruct (filter _ data); [discriminate|]. injection Hin as <-. simpl. lia.
  - intros r Hr.
    destruct (obj_get o (field r)) as [c|] eqn:Eg.
    + exists (mk (field r, c)). split; [|reflexivity].
      apply (Permutation_in _ (Permutation_sym HP)), in_map. apply obj_get_in; assumption.
    + rewrite Hget, fold_group_step_none in Eg.
      destruct (filter _ data) eqn:Ef; [|discriminate].
      exfalso. apply (filter_in_nonempty (fun r0 => String.eqb (field r0) (field r)) _ _ Hr
                        (String.eqb_refl (field r))). exact Ef.
  - rewrite (list_sum_perm _ _ (Permutation_map count HP)), map_map.
    rewrite (map_ext (fun x => count (mk x)) snd) by (intro; reflexivity).
    unfold group_reduce in E. rewrite (group_reduce_sum field data [] o E). reflexivity.
Qed.

(** X1: [groupBy] on a string field partitions the records: one row per
    distinct value, whose count is the number of records with that value. *)
Theorem groupBy_partition : forall data field,
  (forall r, In r data -> inherited_key (field r) = false) ->
  exists rows, groupBy data field = Some rows /\
    NoDup (map key rows) /\
    (forall row, In row rows ->
       name row = key row /\ value row = count row /\ (0 < count row)%nat /\
       count row = length (filter (fun r => String.eqb (field r) (key row)) data)) /\
    (forall r, In r data -> exists row, In row rows /\ key row = field r) /\
    list_sum (map count rows) = length data.
Proof.
  intros data field Hk. exact (groupBy_spec data field Hk).
Qed.


Lemma fold_rate_step : forall l t d,
  fold_left (fun acc r => Some (rate_step acc r)) l (Some (t, d)) =
  Some (t + length l, d + length (filter is_default l))%nat.
Proof.
  induction l as [|r l IH]; intros t d; cbn [fold_left].
  - simpl. rewrite !Nat.add_0_r. reflexivity.
  - unfold rate_step at 2. cbn [fst snd]. rewrite IH.
    simpl. destruct (is_default r); simpl; do 2 f_equal; lia.
Qed.

Lemma fold_rate_step_none : forall l,
  fold_left (fun acc r => Some (rate_step acc r)) l None =
  match l with [] => None | _ => Some (length l, length (filter is_default l)) end.
Proof.
  intros [|r l]; cbn [fold_left]; [reflexivity|].
  unfold rate_step at 2. cbn [fst snd]. rewrite fold_rate_step.
  simpl. destruct (is_default r); simpl; do 2 f_equal; lia.
Qed.

Lemma obj_set_rate_sum : forall (o : list (string * (nat * nat))) k r,
  list_sum (map (fun kv => fst (snd kv)) (obj_set o k (rate_step (obj_get o k) r))) =
    S (list_sum (map (fun kv => fst (snd kv)) o)) /\
  list_sum (map (fun kv => snd (snd kv)) (obj_set o k (rate_step (obj_get o k) r))) =
    ((if is_default r then 1 else 0) + list_sum (map (fun kv => snd (snd kv)) o))%nat.
Proof.
  intros o k r. induction o as [|[k0 [t0 d0]] o IH]; simpl.
  - unfold rate_step; simpl. destruct (is_default r); simpl; split; reflexivity.
  - destruct (String.eqb_spec k k0) as [->|Hne]; simpl.
    + unfold rate_step; simpl. destruct (is_default r); simpl; split; lia.
    + destruct IH as [IH1 IH2]. rewrite IH1, IH2. split; lia.
Qed.

Lemma rate_reduce_sum : forall field data o0 o,
  fold_left (own_update rate_step field) data (Some o0) = Some o ->
  list_sum (map (fun kv => fst (snd kv)) o) = (list_sum (map (fun kv => fst (snd kv)) o0) + length data)%nat /\
  list_sum (map (fun kv => snd (snd kv)) o) =
    (list_sum (map (fun kv => snd (snd kv)) o0) + length (filter is_default data))%nat.
Proof.
  intros field data. induction data as [|r data IH]; intros o0 o E; simpl in *.
  - injection E as ->. lia.
  - destruct (inherited_key (field r)).
    + exfalso. clear IH. induction data as [|r' data IHd]; simpl in E; [discriminate|exact (IHd E)].
    + destruct (IH _ _ E) as [H1 H2]. destruct (obj_set_rate_sum o0 (field r) r) as [S1 S2].
      rewrite H1, H2, S1, S2. destruct (is_default r); simpl; split; lia.
Qed.

Lemma js_lt_fin : forall a b, js_lt (Fin a) (Fin b) = true <-> a < b.
Proof.
  intros a b. unfold js_lt; simpl. rewrite Qlt_alt.
  destruct (a ?= b); split; congruence.
Qed.

Lemma rate_bounds : forall d t : nat, (d <= t)%nat -> (0 < t)%nat ->
  0 <= inject_Z (Z.of_nat d) / inject_Z (Z.of_nat t) * 100 <= 100.
Proof.
  intros d t Hdt Ht.
  assert (Hpos : 0 < inject_Z (Z.of_nat t)) by (change 0 with (inject_Z 0); rewrite <- Zlt_Qlt; lia).
  split.
  - apply (Qmult_le_0_compat); [|discriminate].
    apply Qle_shift_div_l; [exact Hpos|]. rewrite Qmult_0_l. change 0 with (inject_Z 0). rewrite <- Zle_Qle. lia.
  - rewrite <- (Qmult_1_l 100) at 2. apply Qmult_le_compat_r; [|discriminate].
    apply Qle_shift_div_r; [exact Hpos|]. rewrite Qmult_1_l, <- Zle_Qle. lia.
Qed.


(** X4: the two slices of [target_distribution] count the repaid and the
    defaulted records, add up to the number of records, and agree with the
    [totalDefaults] and [totalApplicants] metrics of [calculateKPIs]. *)
Theorem target_distribution_counts : forall data,
  exists repaid defaulted,
    target_distribution data =
      [("Repaid", repaid, "hsl(var(--success))"); ("Default", defaulted, "hsl(var(--destructive))")]%string /\
    repaid = length (filter is_repaid data) /\
    defaulted = length (filter is_default data) /\
    (repaid + defaulted = length data)%nat /\
    (data <> [] ->
       kpi_lookup "totalDefaults" (calculateKPIs data) = Some (num_of_nat defaulted) /\
       kpi_lookup "totalApplicants" (calculateKPIs data) = Some (num_of_nat (repaid + defaulted))).
Proof.
  intros data. pose proof (filter_length is_default data) as HL.
  exists (length data - length (filter is_default data))%nat, (length (filter is_default data)).
  unfold is_repaid. split; [reflexivity|].
  split; [lia|]. split; [reflexivity|]. split; [lia|].
  intros Hne. replace (length data - length (filter is_default data) + length (filter is_default data))%nat
    with (length data) by lia.
  destruct data as [|r rest]; [contradiction|]. split; reflexivity.
Qed.


Lemma groupBy_partition_witness :
  (forall r, In r sample_data -> inherited_key (CODE_GENDER r) = false) /\
  exists rows, groupBy sample_data CODE_GENDER = Some rows /\ list_sum (map count rows) = 2%nat.
Proof.
  assert (H : forall r, In r sample_data -> inherited_key (CODE_GENDER r) = false).
  { intros r Hr. vm_compute in Hr. destruct Hr as [<-|[<-|[]]]; vm_compute; reflexivity. }
  split; [exact H|].
  destruct (groupBy_partition sample_data CODE_GENDER H) as (rows & E & _ & _ & _ & S).
  exists rows. split; [exact E|exact S].
Defined.




Lemma brackets_by_sorted_incomes :
  forall records, records <> [] ->
  exists s q1 q3,
    Sorted Qle s /\ Permutation s (map AMT_INCOME_TOTAL records) /\
    nth_error s (Nat.div (length records) 4) = Some q1 /\
    nth_error s (Nat.div (3 * length records) 4) = Some q3 /\
    addIncomeBrackets records =
      map (fun r => set_bracket r (spec_bracket q1 q3 (AMT_INCOME_TOTAL r))) records.
Proof.
  intros records Hne.
  set (s := qsort (map AMT_INCOME_TOTAL records)).
  assert (Hlen : length s = length records)
    by (unfold s; now rewrite qsort_length, length_map).
  assert (Hpos : (0 < length records)%nat)
    by (destruct records; [congruence|simpl; lia]).
  destruct (nth_error_in_range s (Nat.div (length records) 4)) as [q1 Hq1].
  { rewrite Hlen. apply Nat.div_lt; lia. }
  destruct (nth_error_in_range s (Nat.div (3 * length records) 4)) as [q3 Hq3].
  { rewrite Hlen. apply Nat.Div0.div_lt_upper_bound; lia. }
  exists s, q1, q3. refine (conj (qsort_sorted _) (conj (qsort_perm _) (conj Hq1 (conj Hq3 _)))).
  unfold addIncomeBrackets.
  replace (map (fun r => Fin (AMT_INCOME_TOTAL r)) records) with (map Fin (map AMT_INCOME_TOTAL records))
    by now rewrite map_map.
  rewrite js_sort_fin. fold s. rewrite length_map, Hlen.
  rewrite quantile_index_quarter, quantile_index_three_quarters.
  rewrite (nth_error_map_fin _ _ _ Hq1), (nth_error_map_fin _ _ _ Hq3).
  apply map_ext. intro r. unfold bracket_of, spec_bracket, js_le_opt, js_ge_opt, js_ge.
  now rewrite !js_le_fin.
Qed.

Lemma filter_map_length : forall {A B} (p : B -> bool) (g : A -> B) l,
  length (filter p (map g l)) = length (filter (fun x => p (g x)) l).
Proof.
  intros A B p g l. induction l as [|x l IH]; simpl; [reflexivity|].
  destruct (p (g x)); simpl; rewrite IH; reflexivity.
Qed.

Lemma Permutation_filter_bool : forall {A} (f : A -> bool) l l',
  Permutation l l' -> Permutation (filter f l) (filter f l').
Proof.
  intros A f l l' HP. induction HP as [|x l l' _ IH|x y l|l l' l'' _ IH1 _ IH2]; simpl.
  - constructor.
  - destruct (f x); [apply perm_skip|]; exact IH.
  - destruct (f x), (f y); try constructor; reflexivity.
  - exact (Permutation_trans IH1 IH2).
Qed.

Lemma sorted_prefix_le : forall s k q,
  Sorted Qle s -> nth_error s k = Some q ->
  (S k <= length (filter (fun x => Qle_bool x q) s))%nat.
Proof.
  intros s. induction s as [|x s IH]; intros k q Hs Hk; [destruct k; discriminate|].
  assert (Hx : forall y, In y s -> x <= y).
  { intros y Hy. apply Sorted_StronglySorted in Hs; [|intros a b c; apply Qle_trans].
    inversion Hs as [|? ? _ Hf]. rewrite Forall_forall in Hf. auto. }
  apply Sorted_inv in Hs as [Hs _].
  destruct k as [|k]; simpl in Hk.
  - injection Hk as <-. simpl. rewrite (proj2 (Qle_bool_iff x x) (Qle_refl x)). simpl. lia.
  - specialize (IH k q Hs Hk). simpl.
    assert (Hxq : x <= q) by (apply Hx, (nth_error_In s k), Hk).
    rewrite (proj2 (Qle_bool_iff x q) Hxq). simpl. lia.
Qed.

(** X7: the income brackets of [addIncomeBrackets] follow the incomes: a
    record with an income at most that of a Low record is Low, and a record
    with an income at least that of a High record is High. *)
Theorem addIncomeBrackets_monotone : forall records r1 r2,
  In r1 (addIncomeBrackets records) -> In r2 (addIncomeBrackets records) ->
  AMT_INCOME_TOTAL r1 <= AMT_INCOME_TOTAL r2 ->
  (INCOME_BRACKET r2 = Some Low -> INCOME_BRACKET r1 = Some Low) /\
  (INCOME_BRACKET r1 = Some High -> INCOME_BRACKET r2 = Some High).
Proof.
  intros records r1 r2 H1 H2 Hle.
  assert (Hne : records <> []) by (intros ->; destruct H1).
  destruct (brackets_by_sorted_incomes records Hne) as (s & q1 & q3 & _ & _ & _ & _ & E).
  rewrite E in H1, H2.
  apply in_map_iff in H1 as (x1 & <- & _). apply in_map_iff in H2 as (x2 & <- & _).
  simpl in Hle |- *. unfold spec_bracket.
  destruct (Qle_bool (AMT_INCOME_TOTAL x2) q1) eqn:L2.
  - apply Qle_bool_iff in L2.
    rewrite (proj2 (Qle_bool_iff _ _) (Qle_trans _ _ _ Hle L2)). split; [reflexivity|discriminate].
  - destruct (Qle_bool (AMT_INCOME_TOTAL x1) q1) eqn:L1; [split; intros; first [reflexivity|discriminate]|].
    destruct (Qle_bool q3 (AMT_INCOME_TOTAL x1)) eqn:H3; [|split; intro H; [destruct (Qle_bool q3 (AMT_INCOME_TOTAL x2)); discriminate|discriminate]].
    apply Qle_bool_iff in H3.
    rewrite (proj2 (Qle_bool_iff _ _) (Qle_trans _ _ _ H3 Hle)). split; intros; first [reflexivity|discriminate].
Qed.

Lemma addIncomeBrackets_monotone_witness :
  let r1 := nth 1 sample_data sample_record1 in
  let r2 := nth 0 sample_data sample_record1 in
  In r1 sample_data /\ In r2 sample_data /\ AMT_INCOME_TOTAL r1 <= AMT_INCOME_TOTAL r2 /\
  (INCOME_BRACKET r2 = Some Low -> INCOME_BRACKET r1 = Some Low).
Proof.
  intros r1 r2.
  assert (H1 : In r1 sample_data) by (vm_compute; right; left; reflexivity).
  assert (H2 : In r2 sample_data) by (vm_compute; left; reflexivity).
  assert (H3 : AMT_INCOME_TOTAL r1 <= AMT_INCOME_TOTAL r2) by (vm_compute; discriminate).
  refine (conj H1 (conj H2 (conj H3 _))).
  exact (proj1 (addIncomeBrackets_monotone (preprocessData [sample_record1; sample_record2]) r1 r2 H1 H2 H3)).
Defined.

(** X8: for a non-empty collection, more than a quarter of the records,
    at least [floor(n/4) + 1] of them, are labelled Low by
    [addIncomeBrackets]. *)
Theorem addIncomeBrackets_low_quarter : forall records, records <> [] ->
  (S (Nat.div (length records) 4) <=
     length (filter (fun r => match INCOME_BRACKET r with Some Low => true | _ => false end)
                    (addIncomeBrackets records)))%nat.
Proof.
  intros records Hne.
  destruct (brackets_by_sorted_incomes records Hne) as (s & q1 & q3 & Hs & HP & Hq1 & _ & E).
  rewrite E, filter_map_length.
  rewrite (filter_ext _ (fun r => Qle_bool (AMT_INCOME_TOTAL r) q1)).
  2:{ intro r. simpl. unfold spec_bracket.
      destruct (Qle_bool (AMT_INCOME_TOTAL r) q1); [reflexivity|].
      destruct (Qle_bool q3 (AMT_INCOME_TOTAL r)); reflexivity. }
  rewrite <- (filter_map_length (fun x => Qle_bool x q1) AMT_INCOME_TOTAL).
  rewrite <- (Permutation_length (Permutation_filter_bool _ _ _ HP)).
  exact (sorted_prefix_le s _ q1 Hs Hq1).
Qed.

Lemma addIncomeBrackets_low_quarter_witness :
  [sample_record1; sample_record2] <> [] /\
  (1 <= length (filter (fun r => match INCOME_BRACKET r with Some Low => true | _ => false end)
                       (addIncomeBrackets [sample_record1; sample_record2])))%nat.
Proof.
  assert (H : [sample_record1; sample_record2] <> []) by discriminate.
  split; [exact H|]. exact (addIncomeBrackets_low_quarter _ H).
Defined.

Lemma nat_sign : forall k : nat,
  num_sign (num_of_nat k) = match k with O => None | S _ => Some true end.
Proof.
  intros [|k]; [reflexivity|]. unfold num_sign, num_of_nat.
  destruct (Qeq_bool _ 0) eqn:E.
  - apply Qeq_bool_eq in E. change 0 with (inject_Z 0) in E.
    rewrite inject_Z_injective in E. lia.
  - destruct (Qle_bool _ 0) eqn:E'; [|reflexivity].
    apply Qle_bool_iff in E'. change 0 with (inject_Z 0) in E'. rewrite <- Zle_Qle in E'. lia.
Qed.

Lemma empty_bin_bound : forall i k : nat,
  f_add PInf (f_mul (num_of_nat i) (f_div (f_sub NInf PInf) (num_of_nat k))) = NaN.
Proof.
  intros i k.
  assert (Hs : f_div (f_sub NInf PInf) (num_of_nat k) = NInf).
  { change (f_sub NInf PInf) with NInf. pose proof (nat_sign k) as H.
    unfold num_of_nat in *. unfold f_div, num_div. rewrite H. destruct k; reflexivity. }
  rewrite Hs. pose proof (nat_sign i) as H. unfold num_of_nat in *. unfold f_mul, num_mul. rewrite H.
  destruct i; reflexivity.
Qed.

(** X10: on an empty list [createBins] does not throw: it returns
    [numBins] bins with count 0 whose bounds are NaN and whose range labels
    read ["NaN-NaN"]. *)
Theorem createBins_empty : forall numBins,
  exists bins, Bins.createBins [] numBins = Some bins /\ length bins = numBins /\
    (forall b, In b bins ->
       Bins.count b = 0%nat /\ Bins.min b = NaN /\ Bins.max b = NaN /\ Bins.range b = (NaN, NaN)).
Proof.
  intros numBins. unfold Bins.createBins. cbn [map fold_left].
  eexists. split; [reflexivity|]. split; [rewrite length_map, length_seq; reflexivity|].
  intros b Hb. apply in_map_iff in Hb as (i & <- & _). cbn [Bins.count Bins.min Bins.max Bins.range].
  rewrite !empty_bin_bound. refine (conj eq_refl (conj eq_refl (conj eq_refl eq_refl))).
Qed.

Lemma Qmult_comm_eq : forall x y : Q, x * y = y * x.
Proof. intros [a b] [c d]. unfold Qmult. simpl. rewrite Z.mul_comm, Pos.mul_comm. reflexivity. Qed.

Lemma num_mul_comm : forall a b, num_mul a b = num_mul b a.
Proof.
  intros [x| | |] [y| | |]; unfold num_mul; try reflexivity;
    try (rewrite Qmult_comm_eq; reflexivity);
    destruct (num_sign _), (num_sign _); try reflexivity; match goal with |- context [Bool.eqb ?u ?v] => destruct u, v; reflexivity end.
Qed.

Lemma f_mul_comm : forall a b, f_mul a b = f_mul b a.
Proof. intros a b. unfold f_mul. rewrite num_mul_comm. reflexivity. Qed.

Lemma correlation_pairs_swap : forall data f1 f2,
  correlation_pairs data f2 f1 = map (fun p => (snd p, fst p)) (correlation_pairs data f1 f2).
Proof.
  intros data f1 f2. unfold correlation_pairs.
  induction data as [|r data IH]; [reflexivity|]. simpl. rewrite IH, map_app.
  destruct (field_value r f1), (field_value r f2); reflexivity.
Qed.

Lemma sum_by_map : forall f g l, sum_by f (map g l) = sum_by (fun p => f (g p)) l.
Proof.
  intros f g l. unfold sum_by. generalize (Fin 0).
  induction l as [|p l IH]; intro s; simpl; [reflexivity|]. apply IH.
Qed.

Lemma sum_by_ext : forall f g l, (forall p, f p = g p) -> sum_by f l = sum_by g l.
Proof.
  intros f g l H. unfold sum_by. generalize (Fin 0).
  induction l as [|p l IH]; intro s; simpl; [reflexivity|]. rewrite H. apply IH.
Qed.

Lemma pearson_sym : forall data f1 f2,
  calculatePearsonCorrelation data f1 f2 = calculatePearsonCorrelation data f2 f1.
Proof.
  intros data f1 f2. unfold calculatePearsonCorrelation.
  rewrite (correlation_pairs_swap data f1 f2), length_map, !sum_by_map. cbn [fst snd].
  set (P := correlation_pairs data f1 f2).
  rewrite (sum_by_ext (fun p => f_mul (snd p) (fst p)) (fun p => f_mul (fst p) (snd p)) P)
    by (intro; apply f_mul_comm).
  cbv zeta.
  change (sum_by (fun p : num * num => snd p) P) with (sum_by snd P).
  change (sum_by (fun p : num * num => fst p) P) with (sum_by fst P).
  rewrite (f_mul_comm (sum_by snd P) (sum_by fst P)).
  rewrite (f_mul_comm
    (f_sub (f_mul (num_of_nat (length P)) (sum_by (fun p => f_mul (snd p) (snd p)) P))
           (f_mul (sum_by snd P) (sum_by snd P)))).
  reflexivity.
Qed.

Lemma prop_lookup_map_in : forall {V} (g : string -> V) keys k,
  In k keys -> prop_lookup k (map (fun k' => (k', g k')) keys) = Some (g k).
Proof.
  intros V g keys k Hk. unfold prop_lookup. induction keys as [|k0 keys IH]; [destruct Hk|].
  simpl. destruct (String.eqb_spec k0 k) as [->|Hne]; [reflexivity|].
  apply IH. destruct Hk as [->|Hk]; [contradiction|exact Hk].
Qed.

Lemma prop_lookup_map_notin : forall {V} (g : string -> V) keys k,
  ~ In k keys -> prop_lookup k (map (fun k' => (k', g k')) keys) = None.
Proof.
  intros V g keys k Hk. unfold prop_lookup. induction keys as [|k0 keys IH]; [reflexivity|].
  simpl. destruct (String.eqb_spec k0 k) as [->|Hne]; [exfalso; apply Hk; left; reflexivity|].
  apply IH. intro H. apply Hk. right. exact H.
Qed.

(** X11: [calculateCorrelations] is a symmetric matrix: for two fields of
    [numericalFields], [correlations[field1][field2]] is the Pearson
    coefficient of the two fields and equals [correlations[field2][field1]];
    a field outside [numericalFields] has no row. *)
Theorem calculateCorrelations_symmetric : forall data field1 field2,
  In field1 numericalFields -> In field2 numericalFields ->
  correlation_at (calculateCorrelations data) field1 field2 =
    Some (calculatePearsonCorrelation data field1 field2) /\
  correlation_at (calculateCorrelations data) field1 field2 =
    correlation_at (calculateCorrelations data) field2 field1 /\
  (forall field, ~ In field numericalFields ->
     prop_lookup field (calculateCorrelations data) = None).
Proof.
  intros data field1 field2 H1 H2.
  assert (E : forall f g, In f numericalFields -> In g numericalFields ->
            correlation_at (calculateCorrelations data) f g = Some (calculatePearsonCorrelation data f g)).
  { intros f g Hf Hg. unfold correlation_at, calculateCorrelations.
    rewrite (prop_lookup_map_in
               (fun f1 => map (fun f2 => (f2, calculatePearsonCorrelation data f1 f2)) numericalFields)
               numericalFields f Hf).
    apply (prop_lookup_map_in (fun f2 => calculatePearsonCorrelation data f f2)), Hg. }
  split; [apply E; assumption|]. split.
  - rewrite (E _ _ H1 H2), (E _ _ H2 H1), pearson_sym. reflexivity.
  - intros field Hf. unfold calculateCorrelations.
    apply (prop_lookup_map_notin
             (fun f1 => map (fun f2 => (f2, calculatePearsonCorrelation data f1 f2)) numericalFields)), Hf.
Qed.

Lemma calculateCorrelations_symmetric_witness :
  In "DTI"%string numericalFields /\ In "AGE_YEARS"%string numericalFields /\
  correlation_at (calculateCorrelations sample_data) "DTI" "AGE_YEARS" =
    correlation_at (calculateCorrelations sample_data) "AGE_YEARS" "DTI".
Proof.
  assert (H1 : In "DTI"%string numericalFields) by (simpl; tauto).
  assert (H2 : In "AGE_YEARS"%string numericalFields) by (simpl; tauto).
  refine (conj H1 (conj H2 _)).
  exact (proj1 (proj2 (calculateCorrelations_symmetric sample_data _ _ H1 H2))).
Defined.

(** ** Derived features of generated records *)

Lemma scaled_ratio_fin : forall A I m, (m = 10 \/ m = 100 \/ m = 1000) ->
  1 <= A <= 100000000 -> 1 <= I ->
  exists q, f_div (Math_round (f_mul (f_div (Fin A) (Fin I)) (Fin m))) (Fin m) = Fin q.
Proof.
  intros A I m Hm HA HI.
  rewrite f_div_fin by (intro F; Lqa.lra).
  assert (Hw : 0 <= A / I <= 100000000).
  { split.
    - apply Qle_shift_div_l; Lqa.lra.
    - apply Qle_shift_div_r; Lqa.lra. }
  set (w := A / I) in *.
  destruct (round64_coarse w) as (t1 & E1 & H1); [qabs_bounds; Lqa.lra|].
  rewrite E1.
  destruct (round_scaled_near t1 m Hm) as (v & Ev & _); [qabs_bounds; Lqa.lra|].
  exists v. exact Ev.
Qed.

Lemma preprocess_record_generated : forall raw,
  10957 <= - DAYS_BIRTH raw <= 19724 ->
  (DAYS_EMPLOYED raw = 365243 \/ 0 <= - DAYS_EMPLOYED raw <= 9131) ->
  75 <= AMT_INCOME_TOTAL raw -> 1 <= AMT_CREDIT raw <= 100000000 ->
  1 <= AMT_ANNUITY raw <= 100000000 ->
  (exists a, AGE_YEARS (preprocess_record raw) = Some (Fin a) /\ 18 <= a <= 80) /\
  (exists e, EMPLOYMENT_YEARS (preprocess_record raw) = Some (Fin e) /\ 0 <= e <= 40) /\
  exists q1 q2 q3, DTI (preprocess_record raw) = Some (Fin q1) /\
    LOAN_TO_INCOME (preprocess_record raw) = Some (Fin q2) /\
    ANNUITY_TO_CREDIT (preprocess_record raw) = Some (Fin q3).
Proof.
  intros raw Hb Hem Hi Hc Ha.
  unfold preprocess_record, set_derived. cbv zeta.
  cbn [AGE_YEARS EMPLOYMENT_YEARS DTI LOAN_TO_INCOME ANNUITY_TO_CREDIT].
  split; [|split].
  - rewrite f_div_fin by discriminate.
    set (X := - DAYS_BIRTH raw / 365.25).
    assert (EX : - DAYS_BIRTH raw == X * 365.25) by (unfold X; field).
    destruct (round64_coarse X) as (t1 & E1 & H1); [qabs_bounds; Lqa.lra|].
    rewrite E1.
    destruct (round_scaled_near t1 10 (or_introl eq_refl)) as (v & Ev & Hv);
      [qabs_bounds; Lqa.lra|].
    rewrite Ev. exists v. split; [reflexivity|].
    qabs_bounds; split; Lqa.lra.
  - destruct (Qeq_bool (DAYS_EMPLOYED raw) 365243) eqn:Ec.
    + exists 0. split; [vm_compute; reflexivity|split; discriminate].
    + destruct Hem as [Hem|Hem]; [rewrite Hem in Ec; discriminate|].
      rewrite f_div_fin by discriminate.
      set (X := - DAYS_EMPLOYED raw / 365.25).
      assert (EX : - DAYS_EMPLOYED raw == X * 365.25) by (unfold X; field).
      destruct (round64_coarse X) as (t1 & E1 & H1); [qabs_bounds; Lqa.lra|].
      rewrite E1.
      destruct (round_scaled_near t1 10 (or_introl eq_refl)) as (v & Ev & Hv);
        [qabs_bounds; Lqa.lra|].
      rewrite Ev. unfold Math_max2.
      destruct (js_lt (Fin 0) (Fin v)) eqn:Ej.
      * apply js_lt_fin in Ej. exists v. split; [reflexivity|].
        qabs_bounds; split; Lqa.lra.
      * exists 0. split; [reflexivity|split; discriminate].
  - destruct (scaled_ratio_fin (AMT_ANNUITY raw) (AMT_INCOME_TOTAL raw) 1000) as (q1 & E1);
      [right; right; reflexivity|exact Ha|Lqa.lra|].
    destruct (scaled_ratio_fin (AMT_CREDIT raw) (AMT_INCOME_TOTAL raw) 100) as (q2 & E2);
      [right; left; reflexivity|exact Hc|Lqa.lra|].
    destruct (scaled_ratio_fin (AMT_ANNUITY raw) (AMT_CREDIT raw) 1000) as (q3 & E3);
      [right; right; reflexivity|exact Ha|Lqa.lra|].
    exists q1, q2, q3. rewrite E1, E2, E3. auto.
Qed.

Module GeneratorRanges.

Import Generator GeneratorFacts.
Local Open Scope R_scope.

Lemma wp_random_ok : forall d i Q,
  draws_ok d -> (0 <= d i < 1 -> Q (d i) (S i)) -> wp Math_random d i Q.
Proof. intros d i Q Hd H. apply wp_random, H, Hd. Qed.

Lemma wp_pick_in : forall {A} (xs : list A) d i Q,
  draws_ok d -> xs <> [] -> (forall x, In x xs -> Q x (S i)) -> wp (pick xs) d i Q.
Proof.
  intros A xs d i Q Hd Hne HQ. unfold pick. apply wp_bind, wp_random. cbv beta zeta.
  destruct (floor_index (d i) (length xs) (Hd i)) as [H0 Hlt].
  { destruct xs; [congruence|simpl; lia]. }
  apply Z.leb_le in H0. rewrite H0.
  destruct (nth_error xs _) eqn:E; [apply wp_ret, HQ; eapply nth_error_In; exact E|].
  apply nth_error_None in E. lia.
Qed.

Lemma round_ge : forall y (k : Z), IZR k - / 2 <= y -> (k <= Math_round_R y)%Z.
Proof.
  intros y k H. unfold Math_round_R. destruct (base_Int_part (y + / 2)) as [H1 H2].
  assert (Hlt : IZR (k - 1) < IZR (Int_part (y + / 2))) by (rewrite minus_IZR; simpl; lra).
  apply lt_IZR in Hlt. lia.
Qed.

Lemma round_le : forall y (k : Z), y < IZR k + / 2 -> (Math_round_R y <= k)%Z.
Proof.
  intros y k H. unfold Math_round_R. destruct (base_Int_part (y + / 2)) as [H1 H2].
  assert (Hlt : IZR (Int_part (y + / 2)) < IZR (k + 1)) by (rewrite plus_IZR; simpl; lra).
  apply lt_IZR in Hlt. lia.
Qed.

Lemma wp_randomAge_range : forall d i Q,
  draws_ok d -> (forall z, (30 <= z <= 54)%Z -> Q z (S (S i))) -> wp randomAge d i Q.
Proof.
  intros d i Q Hd HQ. unfold randomAge. apply wp_bind.
  change (randomAge_loop 1000) with (randomAge_loop (S 999)). cbn [randomAge_loop].
  apply wp_bind, wp_random, wp_bind, wp_random. cbv beta zeta.
  pose proof (Hd i). pose proof (Hd (S i)).
  destruct (Rlt_dec _ 18); [exfalso; lra|]. destruct (Rgt_dec _ 80); [exfalso; lra|].
  apply wp_ret, wp_ret, HQ. split; [apply round_ge|apply round_le]; simpl; lra.
Qed.

Lemma exp_lower : 150 < exp (91 / 10).
Proof.
  pose proof (exp_ineq1_le (13 / 10)) as H.
  assert (E2 : exp (26 / 10) = exp (13 / 10) * exp (13 / 10))
    by (rewrite <- exp_plus; f_equal; lra).
  assert (E4 : exp (52 / 10) = exp (26 / 10) * exp (26 / 10))
    by (rewrite <- exp_plus; f_equal; lra).
  assert (E7 : exp (91 / 10) = exp (52 / 10) * exp (26 / 10) * exp (13 / 10))
    by (rewrite <- !exp_plus; f_equal; lra).
  assert (H2 : 529 / 100 <= exp (26 / 10)).
  { rewrite E2. pose proof (Rmult_le_compat (23 / 10) (exp (13 / 10)) (23 / 10) (exp (13 / 10)) ltac:(lra) ltac:(lra) ltac:(lra) ltac:(lra)).
    lra. }
  assert (H4 : 2798 / 100 <= exp (52 / 10)).
  { rewrite E4. pose proof (Rmult_le_compat (529 / 100) (exp (26 / 10)) (529 / 100) (exp (26 / 10)) ltac:(lra) ltac:(lra) H2 H2).
    lra. }
  assert (H6 : 148 <= exp (52 / 10) * exp (26 / 10)).
  { pose proof (Rmult_le_compat (2798 / 100) (exp (52 / 10)) (529 / 100) (exp (26 / 10)) ltac:(lra) ltac:(lra) H4 H2). lra. }
  rewrite E7. pose proof (Rmult_le_compat 148 (exp (52 / 10) * exp (26 / 10)) (23 / 10) (exp (13 / 10)) ltac:(lra) ltac:(lra) H6 ltac:(lra)).
  lra.
Qed.

Lemma income_lower : forall a b c e, 0 <= a < 1 -> 0 <= b < 1 -> 0 <= c < 1 -> 0 <= e < 1 ->
  75 <= exp (11.5 + 0.8 * (a * b * c - 0.5) * 6) * (0.5 + e * 0.5).
Proof.
  intros a b c e Ha Hb Hc He.
  assert (Habc : 0 <= a * b * c) by (apply Rmult_le_pos; [apply Rmult_le_pos|]; lra).
  assert (Hx : exp (91 / 10) <= exp (11.5 + 0.8 * (a * b * c - 0.5) * 6)).
  { assert (Hle : 91 / 10 <= 11.5 + 0.8 * (a * b * c - 0.5) * 6) by lra.
    destruct (Rle_lt_or_eq_dec _ _ Hle) as [Hl|Heq]; [left; apply exp_increasing, Hl|].
    right. rewrite Heq. reflexivity. }
  pose proof exp_lower. nra.
Qed.

Lemma floor_range : forall x (k : Z), 0 <= x < 1 -> (0 < k)%Z ->
  (0 <= Math_floor_R (x * IZR k) <= k - 1)%Z.
Proof.
  intros x k Hx Hk. unfold Math_floor_R.
  destruct (base_Int_part (x * IZR k)) as [H1 H2].
  assert (Hpos : 0 < IZR k) by (apply IZR_lt; exact Hk).
  assert (0 <= x * IZR k) by (apply Rmult_le_pos; lra).
  assert (x * IZR k < IZR k) by nra.
  assert (Hlo : (-1 < Int_part (x * IZR k))%Z) by (apply lt_IZR; simpl; lra).
  assert (Hhi : (Int_part (x * IZR k) < k)%Z) by (apply lt_IZR; lra).
  lia.
Qed.

Lemma Q_of_Z_range : forall (z lo hi : Z), (lo <= z <= hi)%Z ->
  (inject_Z lo <= inject_Z z <= inject_Z hi)%Q.
Proof. intros z lo hi [H1 H2]. rewrite <- !Zle_Qle. lia. Qed.

Lemma credit_lower : forall I a b, 75 <= I -> 0 <= a < 1 -> 0 <= b < 1 ->
  120 <= I * (2 + a * 6) * (0.8 + b * 0.4).
Proof.
  intros I a b HI Ha Hb.
  pose proof (Rmult_le_compat 75 I 2 (2 + a * 6) ltac:(lra) ltac:(lra) HI ltac:(lra)).
  pose proof (Rmult_le_compat (75 * 2) (I * (2 + a * 6)) 0.8 (0.8 + b * 0.4)
                ltac:(lra) ltac:(lra) H ltac:(lra)).
  lra.
Qed.

Lemma scaled_lower : forall C a lo hi, 120 <= C -> 0 <= a < 1 -> 0 <= lo -> 0 <= hi ->
  120 * lo <= C * (lo + a * hi).
Proof.
  intros C a lo hi HC Ha Hlo Hhi.
  assert (0 <= a * hi) by (apply Rmult_le_pos; lra).
  pose proof (Rmult_le_compat 120 C lo (lo + a * hi) ltac:(lra) Hlo HC ltac:(lra)). lra.
Qed.

Lemma raw_record_spec : forall (i : nat) target gender (age : Z) (income : R) education
    (employment credit annuity goods : R) family (children members : Z) occupation housing
    contract (region : Z) car realty,
  (30 <= age <= 54)%Z -> 75 <= income -> 120 <= credit -> / 2 <= annuity -> / 2 <= goods ->
  In gender ["F"; "M"; "XNA"]%string -> In education educationTypes ->
  In family familyStatusTypes -> In housing housingTypes -> In contract contractTypes ->
  (occupation = ""%string \/ In occupation occupationTypes) ->
  In car ["Y"; "N"]%string -> In realty ["Y"; "N"]%string ->
  (employment = -1 \/ 0 <= employment < 25) ->
  (0 <= children <= 3)%Z -> (1 <= members <= 5)%Z -> (1 <= region <= 3)%Z ->
  let r := mkRecord (inject_Z (100000 + Z.of_nat i)) target gender
         (inject_Z (- Math_round_R (IZR age * 365.25)))
         (if Rgt_dec employment 0 then inject_Z (- Math_round_R (employment * 365.25)) else 365243%Q)
         family (inject_Z children) (inject_Z members) education occupation housing
         (inject_Z (Math_round_R income)) (inject_Z (Math_round_R credit))
         (inject_Z (Math_round_R annuity)) (inject_Z (Math_round_R goods))
         contract (inject_Z region) car realty
         None None None None None None in
    SK_ID_CURR r = inject_Z (100000 + Z.of_nat i) /\
    In (CODE_GENDER r) ["F"; "M"; "XNA"]%string /\
    In (NAME_EDUCATION_TYPE r) educationTypes /\
    In (NAME_FAMILY_STATUS r) familyStatusTypes /\
    In (NAME_HOUSING_TYPE r) housingTypes /\
    In (NAME_CONTRACT_TYPE r) contractTypes /\
    (OCCUPATION_TYPE r = ""%string \/ In (OCCUPATION_TYPE r) occupationTypes) /\
    In (FLAG_OWN_CAR r) ["Y"; "N"]%string /\ In (FLAG_OWN_REALTY r) ["Y"; "N"]%string /\
    (0 <= CNT_CHILDREN r <= 3)%Q /\ (1 <= CNT_FAM_MEMBERS r <= 5)%Q /\
    (1 <= REGION_RATING_CLIENT r <= 3)%Q /\
    (10957 <= - DAYS_BIRTH r <= 19724)%Q /\
    (DAYS_EMPLOYED r = 365243%Q \/ (0 <= - DAYS_EMPLOYED r <= 9131)%Q) /\
    (75 <= AMT_INCOME_TOTAL r)%Q /\ (1 <= AMT_CREDIT r)%Q /\ (1 <= AMT_ANNUITY r)%Q /\
    (1 <= AMT_GOODS_PRICE r)%Q.
Proof.
  intros i target gender age income education employment credit annuity goods family children
    members occupation housing contract region car realty
    Hage Hinc Hcr Han Hgo Hg Hed Hfa Hho Hco Hoc Hcar Hre Hem Hch Hme Hrg r.
  assert (Hz : forall z : Z, (- inject_Z (- z) == inject_Z z)%Q)
    by (intro z; rewrite inject_Z_opp; apply Qopp_opp).
  unfold r; cbn [SK_ID_CURR CODE_GENDER NAME_EDUCATION_TYPE NAME_FAMILY_STATUS NAME_HOUSING_TYPE
    NAME_CONTRACT_TYPE OCCUPATION_TYPE FLAG_OWN_CAR FLAG_OWN_REALTY CNT_CHILDREN CNT_FAM_MEMBERS
    REGION_RATING_CLIENT DAYS_BIRTH DAYS_EMPLOYED AMT_INCOME_TOTAL AMT_CREDIT AMT_ANNUITY
    AMT_GOODS_PRICE].
  refine (conj eq_refl (conj Hg (conj Hed (conj Hfa (conj Hho (conj Hco (conj Hoc
    (conj Hcar (conj Hre (conj _ (conj _ (conj _ (conj _ (conj _ (conj _ (conj _ (conj _ _))))))))))))))))).
  - exact (Q_of_Z_range _ 0 3 Hch).
  - exact (Q_of_Z_range _ 1 5 Hme).
  - exact (Q_of_Z_range _ 1 3 Hrg).
  - rewrite Hz. apply (Q_of_Z_range _ 10957 19724).
    destruct Hage as [Hl Hh]. apply IZR_le in Hl. apply IZR_le in Hh.
    split; [apply round_ge|apply round_le]; lra.
  - destruct (Rgt_dec employment 0) as [Hp|Hp]; [right|left; reflexivity].
    rewrite Hz. apply (Q_of_Z_range _ 0 9131).
    split; [apply round_ge|apply round_le]; simpl; lra.
  - change 75%Q with (inject_Z 75). rewrite <- Zle_Qle. apply round_ge. lra.
  - change 1%Q with (inject_Z 1). rewrite <- Zle_Qle. apply round_ge. lra.
  - change 1%Q with (inject_Z 1). rewrite <- Zle_Qle. apply round_ge. lra.
  - change 1%Q with (inject_Z 1). rewrite <- Zle_Qle. apply round_ge. lra.
Qed.

Ltac gen_step Hd :=
  cbv beta zeta;
  lazymatch goal with
  | |- wp (pick _) _ _ _ => apply wp_pick_in; [exact Hd | discriminate | intros ? ?]
  | |- wp randomAge _ _ _ => apply wp_randomAge_range; [exact Hd | intros ? ?]
  | |- wp Math_random _ _ _ => apply wp_random_ok; [exact Hd | intro]
  | |- wp (ret _) _ _ _ => apply wp_ret
  | |- wp (bind _ _) _ _ _ => apply wp_bind
  | |- wp (if ?c then _ else _) _ _ _ => destruct c
  end.

(** The fields [generate_record] writes, for draws in [[0, 1)]. *)
Lemma generate_record_spec : forall d i j,
  draws_ok d ->
  wp (generate_record i) d j (fun r _ =>
    SK_ID_CURR r = inject_Z (100000 + Z.of_nat i) /\
    In (CODE_GENDER r) ["F"; "M"; "XNA"]%string /\
    In (NAME_EDUCATION_TYPE r) educationTypes /\
    In (NAME_FAMILY_STATUS r) familyStatusTypes /\
    In (NAME_HOUSING_TYPE r) housingTypes /\
    In (NAME_CONTRACT_TYPE r) contractTypes /\
    (OCCUPATION_TYPE r = ""%string \/ In (OCCUPATION_TYPE r) occupationTypes) /\
    In (FLAG_OWN_CAR r) ["Y"; "N"]%string /\ In (FLAG_OWN_REALTY r) ["Y"; "N"]%string /\
    (0 <= CNT_CHILDREN r <= 3)%Q /\ (1 <= CNT_FAM_MEMBERS r <= 5)%Q /\
    (1 <= REGION_RATING_CLIENT r <= 3)%Q /\
    (10957 <= - DAYS_BIRTH r <= 19724)%Q /\
    (DAYS_EMPLOYED r = 365243%Q \/ (0 <= - DAYS_EMPLOYED r <= 9131)%Q) /\
    (75 <= AMT_INCOME_TOTAL r)%Q /\ (1 <= AMT_CREDIT r)%Q /\ (1 <= AMT_ANNUITY r)%Q /\
    (1 <= AMT_GOODS_PRICE r)%Q).
Proof.
  intros d i j Hd. unfold generate_record, randomIncome, randomCredit.
  repeat gen_step Hd.
  all: apply raw_record_spec;
    first [ assumption
          | apply income_lower; assumption
          | apply credit_lower; [apply income_lower|..]; assumption
          | (apply (Rle_trans _ (120 * 0.05 / 12)); [lra|];
             unfold Rdiv; apply Rmult_le_compat_r; [lra|];
             apply scaled_lower; [apply credit_lower; [apply income_lower|..]|..];
             first [assumption|lra])
          | (apply (Rle_trans _ (120 * 0.8)); [lra|];
             apply scaled_lower; [apply credit_lower; [apply income_lower|..]|..];
             first [assumption|lra])
          | (simpl; tauto)
          | (left; reflexivity)
          | (right; assumption)
          | (right; lra)
          | (left; lra)
          | (destruct (Rgt_dec _ _); simpl; tauto)
          | (split; lia)
          | (apply (floor_range _ 4); [assumption|lia])
          | match goal with
            | |- context [Math_floor_R (?x * IZR ?k)] =>
                pose proof (floor_range x k ltac:(assumption) ltac:(lia)); lia
            end ].
Qed.

Lemma exp_INR : forall n, exp (INR n) = exp 1 ^ n.
Proof.
  induction n as [|n IH]; [simpl; apply exp_0|].
  rewrite S_INR, exp_plus, IH. simpl. ring.
Qed.

Lemma income_upper : forall a b c e, 0 <= a < 1 -> 0 <= b < 1 -> 0 <= c < 1 -> 0 <= e < 1 ->
  exp (11.5 + 0.8 * (a * b * c - 0.5) * 6) * (0.5 + e * 0.5) <= 4782969.
Proof.
  intros a b c e Ha Hb Hc He.
  assert (Hab : 0 <= a * b <= 1) by (split; [apply Rmult_le_pos|]; nra).
  assert (Habc : a * b * c <= 1) by nra.
  assert (Hx : exp (11.5 + 0.8 * (a * b * c - 0.5) * 6) <= exp (INR 14)).
  { assert (Hle : 11.5 + 0.8 * (a * b * c - 0.5) * 6 <= INR 14) by (simpl; lra).
    destruct (Rle_lt_or_eq_dec _ _ Hle) as [Hl|Heq]; [left; apply exp_increasing, Hl|].
    right. rewrite Heq. reflexivity. }
  assert (H14 : exp (INR 14) <= 4782969).
  { rewrite exp_INR. replace 4782969 with (3 ^ 14) by ring.
    apply pow_incr. split; [apply Rlt_le, exp_pos|apply exp_le_3]. }
  set (x := exp (11.5 + 0.8 * (a * b * c - 0.5) * 6)) in *.
  assert (0 < x) by apply exp_pos.
  pose proof (Rmult_le_compat x 4782969 (0.5 + e * 0.5) 1 ltac:(lra) ltac:(lra) ltac:(lra) ltac:(lra)).
  lra.
Qed.

Lemma credit_upper : forall I a b, 0 <= I <= 4782969 -> 0 <= a < 1 -> 0 <= b < 1 ->
  I * (2 + a * 6) * (0.8 + b * 0.4) <= 50000000.
Proof.
  intros I a b HI Ha Hb.
  pose proof (Rmult_le_compat I 4782969 (2 + a * 6) 8 ltac:(lra) ltac:(lra) ltac:(lra) ltac:(lra)).
  assert (0 <= I * (2 + a * 6)) by (apply Rmult_le_pos; lra).
  pose proof (Rmult_le_compat (I * (2 + a * 6)) (4782969 * 8) (0.8 + b * 0.4) 1.2
                ltac:(lra) ltac:(lra) ltac:(lra) ltac:(lra)).
  lra.
Qed.

Lemma annuity_upper : forall C a, 0 <= C <= 50000000 -> 0 <= a < 1 ->
  C * (0.05 + a * 0.15) / 12 <= 50000000.
Proof.
  intros C a HC Ha.
  pose proof (Rmult_le_compat C 50000000 (0.05 + a * 0.15) 1 ltac:(lra) ltac:(lra) ltac:(lra) ltac:(lra)).
  unfold Rdiv. lra.
Qed.

Lemma amount_upper : forall y, y <= 50000000 -> (inject_Z (Math_round_R y) <= 100000000)%Q.
Proof.
  intros y Hy. change 100000000%Q with (inject_Z 100000000). rewrite <- Zle_Qle.
  apply round_le. lra.
Qed.

(** The credit and the annuity [generate_record] writes are at most [10^8]. *)
Lemma generate_record_amounts : forall d i j,
  draws_ok d ->
  wp (generate_record i) d j (fun r _ =>
    (AMT_CREDIT r <= 100000000)%Q /\ (AMT_ANNUITY r <= 100000000)%Q).
Proof.
  intros d i j Hd. unfold generate_record, randomIncome, randomCredit.
  repeat gen_step Hd.
  all: cbn [AMT_CREDIT AMT_ANNUITY]; split; apply amount_upper;
    first [apply annuity_upper|apply credit_upper].
  all: repeat first
    [ assumption
    | apply income_upper
    | apply credit_upper
    | (apply (Rle_trans _ 120); [lra|apply credit_lower; [apply income_lower|..]; assumption])
    | (apply (Rle_trans _ 75); [lra|apply income_lower; assumption])
    | split ].
Qed.

Lemma wp_and : forall {A} (m : Rand A) d i (P Q : A -> nat -> Prop),
  wp m d i P -> wp m d i Q -> wp m d i (fun a j => P a j /\ Q a j).
Proof. intros A m d i P Q. unfold wp. destruct (m d i) as [[a j]|]; tauto. Qed.

Lemma wp_gen_from_all : forall (P : nat -> HomeCreditRecord -> Prop) d,
  (forall i j, wp (generate_record i) d j (fun r _ => P i r)) ->
  forall count start j, wp (gen_from start count) d j
    (fun rs _ => length rs = count /\ forall k r, nth_error rs k = Some r -> P (start + k)%nat r).
Proof.
  intros P d HP count; induction count as [|count IH]; intros start j; cbn [gen_from].
  - apply wp_ret. split; [reflexivity|]. intros [|k] r Hk; discriminate.
  - apply wp_bind. apply (wp_mono _ _ _ _ _ (HP start j)). intros r j' Hr.
    apply wp_bind. apply (wp_mono _ _ _ _ _ (IH (S start) j')). intros rs j'' [Hl Hk].
    apply wp_ret. split; [simpl; congruence|].
    intros [|k] r' E; simpl in E.
    + injection E as <-. rewrite Nat.add_0_r. exact Hr.
    + rewrite Nat.add_succ_r. exact (Hk k r' E).
Qed.

Lemma covered_fin : forall lo hi q, (lo <= q <= hi)%Q -> covered (lo, hi) (Fin q) = true.
Proof.
  intros lo hi q [H1 H2]. unfold covered. cbn [fst snd]. rewrite !js_le_fin.
  apply andb_true_intro. split; apply Qle_bool_iff; assumption.
Qed.

Lemma in_addIncomeBrackets : forall rs r, In r (addIncomeBrackets rs) ->
  exists r0 b, In r0 rs /\ r = set_bracket r0 b.
Proof.
  intros rs r Hr. unfold addIncomeBrackets in Hr. cbv zeta in Hr.
  apply in_map_iff in Hr as (r0 & <- & Hr0). eauto.
Qed.

(** X13: for draws in [[0, 1)], [generateSyntheticData n] returns [n]
    records; the record at index [k] has id [100000 + k], its categories
    from the program's lists, 0 to 3 children, 1 to 5 family members, a
    region rating 1 to 3, an age of 10957 to 19724 days, the unemployed
    code [365243] or 0 to 9131 days of employment, an income of at least 75
    and a credit, annuity and goods price of at least 1. *)
Theorem generateSyntheticData_records : forall d n, draws_ok d ->
  exists rs j, generateSyntheticData n d 0%nat = Some (rs, j) /\ length rs = n /\
  forall k r, nth_error rs k = Some r ->
    SK_ID_CURR r = inject_Z (100000 + Z.of_nat k) /\
    In (CODE_GENDER r) ["F"; "M"; "XNA"]%string /\
    In (NAME_EDUCATION_TYPE r) educationTypes /\
    In (NAME_FAMILY_STATUS r) familyStatusTypes /\
    In (NAME_HOUSING_TYPE r) housingTypes /\
    In (NAME_CONTRACT_TYPE r) contractTypes /\
    (OCCUPATION_TYPE r = ""%string \/ In (OCCUPATION_TYPE r) occupationTypes) /\
    In (FLAG_OWN_CAR r) ["Y"; "N"]%string /\ In (FLAG_OWN_REALTY r) ["Y"; "N"]%string /\
    (0 <= CNT_CHILDREN r <= 3)%Q /\ (1 <= CNT_FAM_MEMBERS r <= 5)%Q /\
    (1 <= REGION_RATING_CLIENT r <= 3)%Q /\
    (10957 <= - DAYS_BIRTH r <= 19724)%Q /\
    (DAYS_EMPLOYED r = 365243%Q \/ (0 <= - DAYS_EMPLOYED r <= 9131)%Q) /\
    (75 <= AMT_INCOME_TOTAL r)%Q /\ (1 <= AMT_CREDIT r)%Q /\ (1 <= AMT_ANNUITY r)%Q /\
    (1 <= AMT_GOODS_PRICE r)%Q.
Proof.
  intros d n Hd.
  pose proof (wp_gen_from_all _ d (fun i j => generate_record_spec d i j Hd) n 0 0) as H.
  destruct (wp_some _ _ _ _ H) as (rs & j & E & Hl & Hk).
  exists rs, j. split; [exact E|]. split; [exact Hl|]. exact Hk.
Qed.

Lemma generateSyntheticData_records_witness :
  draws_ok draws_zero /\
  exists rs j, generateSyntheticData 2 draws_zero 0%nat = Some (rs, j) /\ length rs = 2%nat.
Proof.
  split; [exact draws_zero_ok|].
  destruct (generateSyntheticData_records draws_zero 2 draws_zero_ok) as (rs & j & E & L & _).
  exists rs, j. split; [exact E|exact L].
Defined.

(** X14: for draws in [[0, 1)], [generateCompleteDataset n] returns [n]
    records that the overview page's default filters (no category, ages 18
    to 80, income bracket 'all', employment 0 to 40 years) all keep, each
    with finite DTI, LOAN_TO_INCOME and ANNUITY_TO_CREDIT. *)
Theorem generateCompleteDataset_default_view : forall d n, draws_ok d ->
  exists out j, generateCompleteDataset n d 0%nat = Some (out, j) /\ length out = n /\
  applyFilters out default_filters = out /\
  (forall r, In r out -> exists q1 q2 q3,
     DTI r = Some (Fin q1) /\ LOAN_TO_INCOME r = Some (Fin q2) /\ ANNUITY_TO_CREDIT r = Some (Fin q3)).
Proof.
  intros d n Hd.
  pose proof (wp_gen_from_all _ d
    (fun i j => wp_and _ d j _ _ (generate_record_spec d i j Hd) (generate_record_amounts d i j Hd))
    n 0 0) as H.
  destruct (wp_some _ _ _ _ H) as (rs & j & E & Hl & Hk).
  assert (Hraw : forall raw, In raw rs ->
    (10957 <= - DAYS_BIRTH raw <= 19724)%Q /\
    (DAYS_EMPLOYED raw = 365243%Q \/ (0 <= - DAYS_EMPLOYED raw <= 9131)%Q) /\
    (75 <= AMT_INCOME_TOTAL raw)%Q /\ (1 <= AMT_CREDIT raw <= 100000000)%Q /\
    (1 <= AMT_ANNUITY raw <= 100000000)%Q).
  { intros raw Hin. apply In_nth_error in Hin as [k Ek].
    destruct (Hk k raw Ek) as ((_ & _ & _ & _ & _ & _ & _ & _ & _ & _ & _ & _ & Hb & Hem & Hi & Hc & Ha & _)
                               & Hcu & Hau).
    tauto. }
  assert (Hout : forall r, In r (addIncomeBrackets (preprocessData rs)) ->
    (exists a, AGE_YEARS r = Some (Fin a) /\ (18 <= a <= 80)%Q) /\
    (exists e, EMPLOYMENT_YEARS r = Some (Fin e) /\ (0 <= e <= 40)%Q) /\
    exists q1 q2 q3,
      DTI r = Some (Fin q1) /\ LOAN_TO_INCOME r = Some (Fin q2) /\ ANNUITY_TO_CREDIT r = Some (Fin q3)).
  { intros r Hr. apply in_addIncomeBrackets in Hr as (r0 & b & Hr0 & ->).
    unfold preprocessData in Hr0. apply in_map_iff in Hr0 as (raw & <- & Hin).
    destruct (Hraw raw Hin) as (Hb & Hem & Hi & Hc & Ha).
    cbn [set_bracket AGE_YEARS EMPLOYMENT_YEARS DTI LOAN_TO_INCOME ANNUITY_TO_CREDIT].
    exact (preprocess_record_generated raw Hb Hem Hi Hc Ha). }
  exists (addIncomeBrackets (preprocessData rs)), j.
  split; [unfold generateCompleteDataset, generateSyntheticData, bind; rewrite E; reflexivity|].
  split; [unfold addIncomeBrackets, preprocessData; cbv zeta; rewrite !length_map; exact Hl|].
  split; [|intros r Hr; exact (proj2 (proj2 (Hout r Hr)))].
  apply filter_all_true. intros r Hr.
  destruct (Hout r Hr) as ((a & Ea & Ha) & (e & Ee & He) & _).
  unfold keep, age_ok, employment_ok.
  rewrite (range_ok_covered (AGE_YEARS r) (ageRange default_filters)),
    (range_ok_covered (EMPLOYMENT_YEARS r) (employmentRange default_filters)); [reflexivity| |].
  - intros x Ex. rewrite Ee in Ex. injection Ex as <-. exact (covered_fin 0 40 e He).
  - intros x Ex. rewrite Ea in Ex. injection Ex as <-. exact (covered_fin 18 80 a Ha).
Qed.

Lemma generateCompleteDataset_default_view_witness :
  draws_ok draws_zero /\
  exists out j, generateCompleteDataset 2 draws_zero 0%nat = Some (out, j) /\
    applyFilters out default_filters = out.
Proof.
  split; [exact draws_zero_ok|].
  destruct (generateCompleteDataset_default_view draws_zero 2 draws_zero_ok) as (out & j & E & _ & F & _).
  exists out, j. split; [exact E|exact F].
Defined.

Ltac risk_cases :=
  repeat match goal with
  | |- context [if Rlt_dec ?a ?b then _ else _] => destruct (Rlt_dec a b); try (exfalso; lra)
  | |- context [if Rgt_dec ?a ?b then _ else _] => destruct (Rgt_dec a b); try (exfalso; lra)
  | |- context [if ?c then _ else _] =>
      let E := fresh "E" in destruct c eqn:E; try (vm_compute in E; discriminate E)
  end;
  unfold Rmin; destruct (Rle_dec _ _); lra.

(** X15: the default-risk score of [getDefaultRiskByProfile] lies between
    [0.08 * 0.6 * 0.7 * 0.8 = 0.02688] and the cap [0.5], and both bounds are
    reached. *)
Theorem getDefaultRiskByProfile_range : forall age income education employment,
  0.02688 <= getDefaultRiskByProfile age income education employment <= 0.5 /\
  getDefaultRiskByProfile 40 600000 "Higher education" 20 = 0.02688 /\
  getDefaultRiskByProfile 20 50000 "Lower secondary" 0 = 0.5.
Proof.
  intros age income education employment. split; [|split].
  - unfold getDefaultRiskByProfile.
    repeat match goal with |- context [if ?c then _ else _] => destruct c end;
      unfold Rmin; destruct (Rle_dec _ _); lra.
  - unfold getDefaultRiskByProfile. risk_cases.
  - unfold getDefaultRiskByProfile. risk_cases.
Qed.

End GeneratorRanges.

(** ** Statistics, KPI percentages and filters *)

Lemma toFixed_percent : forall d x, 0 <= x <= 100 ->
  exists y, toFixed d (Fin x) = Fin y /\ 0 <= y <= 100.
Proof.
  intros d x [H0 H1]. unfold toFixed.
  assert (Hbig : Qle_bool (inject_Z (10 ^ 21)) (Qabs x) = false).
  { apply not_true_iff_false. intro E. apply Qle_bool_iff in E. rewrite Qabs_pos in E by exact H0.
    assert (Hc : inject_Z (10 ^ 21) <= 100) by (eapply Qle_trans; eauto).
    vm_compute in Hc. exact (Hc eq_refl). }
  rewrite Hbig, (proj2 (Qle_bool_iff 0 x) H0).
  set (m := inject_Z (10 ^ Z.of_nat d)).
  assert (Hm : 0 < m).
  { unfold m. change 0 with (inject_Z 0). rewrite <- Zlt_Qlt. apply Z.pow_pos_nonneg; lia. }
  set (n := Qfloor (x * m + (1 # 2))).
  exists (inject_Z n / m). split; [reflexivity|].
  assert (Hn1 : inject_Z n <= x * m + (1 # 2)) by apply Qfloor_le.
  assert (Hn2 : x * m + (1 # 2) < inject_Z n + 1).
  { pose proof (Qlt_floor (x * m + (1 # 2))) as Hf. rewrite inject_Z_plus in Hf. exact Hf. }
  assert (Hxm : 0 <= x * m) by (apply Qmult_le_0_compat; [exact H0|apply Qlt_le_weak, Hm]).
  assert (Hxm' : x * m <= 100 * m) by (apply Qmult_le_compat_r; [exact H1|apply Qlt_le_weak, Hm]).
  assert (Hlt : inject_Z n < inject_Z (100 * 10 ^ Z.of_nat d + 1)).
  { rewrite inject_Z_plus, inject_Z_mult. fold m. change (inject_Z 100) with 100.
    change (inject_Z 1) with 1. Lqa.lra. }
  assert (Hgt : inject_Z (-1) < inject_Z n) by (change (inject_Z (-1)) with (-1); Lqa.lra).
  rewrite <- Zlt_Qlt in Hlt, Hgt.
  assert (Hup : inject_Z n <= 100 * m).
  { unfold m. change 100 with (inject_Z 100). rewrite <- inject_Z_mult, <- Zle_Qle. lia. }
  assert (Hlo : 0 <= inject_Z n) by (change 0 with (inject_Z 0); rewrite <- Zle_Qle; lia).
  split.
  - apply Qle_shift_div_l; [exact Hm|]. Lqa.lra.
  - apply Qle_shift_div_r; [exact Hm|]. exact Hup.
Qed.

Lemma ratio_percent : forall k n, (k <= n)%nat -> (0 < n)%nat ->
  exists x, num_mul (num_div (num_of_nat k) (num_of_nat n)) (Fin 100) = Fin x /\ 0 <= x <= 100.
Proof.
  intros k n Hk Hn. unfold num_of_nat, num_div.
  set (a := inject_Z (Z.of_nat k)). set (b := inject_Z (Z.of_nat n)).
  assert (Hb : 0 < b) by (unfold b; change 0 with (inject_Z 0); rewrite <- Zlt_Qlt; lia).
  assert (Ha : 0 <= a) by (unfold a; change 0 with (inject_Z 0); rewrite <- Zle_Qle; lia).
  assert (Hab : a <= b) by (unfold a, b; rewrite <- Zle_Qle; lia).
  assert (Hb0 : Qeq_bool b 0 = false).
  { apply not_true_iff_false. intro E. apply Qeq_bool_eq in E. rewrite E in Hb. discriminate. }
  rewrite Hb0. cbn [num_mul]. exists (a / b * 100). split; [reflexivity|].
  assert (Ht : 0 <= a / b <= 1).
  { split; [apply Qle_shift_div_l|apply Qle_shift_div_r]; try exact Hb; Lqa.lra. }
  set (t := a / b) in *. split; Lqa.lra.
Qed.

Lemma count_where_le : forall p l, (count_where p l <= length l)%nat.
Proof.
  intros p l. unfold count_where. induction l as [|x l IH]; simpl; [lia|].
  destruct (p x); simpl; lia.
Qed.

(** X18: on a non-empty collection, every percentage that [calculateKPIs]
    reports (default and repaid rates, male, female and with-children
    shares, high-credit share) is a finite number from 0 to 100. *)
Theorem calculateKPIs_percentages : forall data, data <> [] ->
  forall key, In key ["defaultRate"; "repaidRate"; "malePercentage"; "femalePercentage";
                      "withChildrenPercentage"; "highCreditPercentage"]%string ->
  exists y, kpi_lookup key (calculateKPIs data) = Some (Fin y) /\ 0 <= y <= 100.
Proof.
  intros data Hne key Hkey.
  destruct data as [|r rs]; [congruence|].
  assert (Hn : (0 < length (r :: rs))%nat) by (simpl; lia).
  destruct (ratio_percent _ _ (count_where_le is_default (r :: rs)) Hn) as (dr & Edr & Hdr).
  cbn [In] in Hkey.
  destruct Hkey as [<-|[<-|[<-|[<-|[<-|[<-|[]]]]]]].
  - destruct (toFixed_percent 2 dr Hdr) as (y & Ey & Hy).
    exists y. split; [rewrite <- Ey, <- Edr; reflexivity|exact Hy].
  - assert (Hz : 0 <= 100 + - dr <= 100) by (split; Lqa.lra).
    destruct (toFixed_percent 2 _ Hz) as (y & Ey & Hy).
    exists y. split; [|exact Hy]. rewrite <- Ey.
    change (Fin (100 + - dr)) with (num_sub (Fin 100) (Fin dr)). rewrite <- Edr. reflexivity.
  - destruct (ratio_percent _ _ (count_where_le (fun r => String.eqb (CODE_GENDER r) "M") (r :: rs)) Hn)
      as (x & Ex & Hx).
    destruct (toFixed_percent 1 x Hx) as (y & Ey & Hy).
    exists y. split; [rewrite <- Ey, <- Ex; reflexivity|exact Hy].
  - destruct (ratio_percent _ _ (count_where_le (fun r => String.eqb (CODE_GENDER r) "F") (r :: rs)) Hn)
      as (x & Ex & Hx).
    destruct (toFixed_percent 1 x Hx) as (y & Ey & Hy).
    exists y. split; [rewrite <- Ey, <- Ex; reflexivity|exact Hy].
  - destruct (ratio_percent _ _ (count_where_le (fun r => negb (Qle_bool (CNT_CHILDREN r) 0)) (r :: rs)) Hn)
      as (x & Ex & Hx).
    destruct (toFixed_percent 1 x Hx) as (y & Ey & Hy).
    exists y. split; [rewrite <- Ey, <- Ex; reflexivity|exact Hy].
  - destruct (ratio_percent _ _ (count_where_le (fun r => negb (Qle_bool (AMT_CREDIT r) 1000000)) (r :: rs)) Hn)
      as (x & Ex & Hx).
    destruct (toFixed_percent 1 x Hx) as (y & Ey & Hy).
    exists y. split; [rewrite <- Ey, <- Ex; reflexivity|exact Hy].
Qed.

Lemma calculateKPIs_percentages_witness :
  sample_data <> [] /\
  In "malePercentage"%string ["defaultRate"; "repaidRate"; "malePercentage"; "femalePercentage";
                              "withChildrenPercentage"; "highCreditPercentage"]%string /\
  exists y, kpi_lookup "malePercentage" (calculateKPIs sample_data) = Some (Fin y) /\ 0 <= y <= 100.
Proof.
  assert (H1 : sample_data <> []) by (vm_compute; discriminate).
  assert (H2 : In "malePercentage"%string ["defaultRate"; "repaidRate"; "malePercentage";
     "femalePercentage"; "withChildrenPercentage"; "highCreditPercentage"]%string)
    by (simpl; tauto).
  exact (conj H1 (conj H2 (calculateKPIs_percentages sample_data H1 _ H2))).
Defined.

Lemma category_ok_in : forall xs x, category_ok xs x = true -> xs <> [] -> In x xs.
Proof.
  intros xs x H Hne. destruct xs as [|y ys]; [congruence|].
  unfold category_ok in H. cbn [length Nat.ltb Nat.leb andb] in H.
  destruct (includes (y :: ys) x) eqn:E; [|discriminate].
  unfold includes in E. apply existsb_exists in E as (z & Hz & Ez).
  apply String.eqb_eq in Ez. subst z. exact Hz.
Qed.

Lemma range_ok_fin : forall a lo hi, range_ok (Some (Fin a)) (lo, hi) = true -> ~ a == 0 ->
  lo <= a <= hi.
Proof.
  intros a lo hi H Ha. unfold range_ok in H. cbn [truthy_opt truthy fst snd] in H.
  assert (Ea : Qeq_bool a 0 = false) by (apply not_true_iff_false; intro E; apply Ha, Qeq_bool_eq, E).
  rewrite Ea in H. cbn [negb andb] in H.
  destruct (js_lt (Fin a) (Fin lo)) eqn:E1; [discriminate|].
  unfold js_gt in H. destruct (js_lt (Fin hi) (Fin a)) eqn:E2; [discriminate|].
  split; apply Qnot_lt_le; intro Hlt; apply js_lt_fin in Hlt; congruence.
Qed.

Lemma option_bracket_eqb_eq : forall a b, option_bracket_eqb a b = true -> a = b.
Proof. intros [[]|] [[]|]; simpl; congruence. Qed.

(** X19: a record that [applyFilters] keeps is one of its input; its
    gender, education, family status and housing type are in the
    corresponding list when that list is not empty; a non-zero age or
    employment tenure lies in the filter's range; and, unless the bracket
    filter is ['all'], its income bracket is the one the filter names
    (none at all for a name other than ['low'], ['mid'], ['high']). *)
Theorem applyFilters_sound : forall data filters r, In r (applyFilters data filters) ->
  In r data /\
  (gender filters <> [] -> In (CODE_GENDER r) (gender filters)) /\
  (education filters <> [] -> In (NAME_EDUCATION_TYPE r) (education filters)) /\
  (familyStatus filters <> [] -> In (NAME_FAMILY_STATUS r) (familyStatus filters)) /\
  (housingType filters <> [] -> In (NAME_HOUSING_TYPE r) (housingType filters)) /\
  (forall a, AGE_YEARS r = Some (Fin a) -> ~ a == 0 ->
     fst (ageRange filters) <= a <= snd (ageRange filters)) /\
  (forall e, EMPLOYMENT_YEARS r = Some (Fin e) -> ~ e == 0 ->
     fst (employmentRange filters) <= e <= snd (employmentRange filters)) /\
  (incomeBracket filters <> "all"%string -> INCOME_BRACKET r = bracketMap (incomeBracket filters)).
Proof.
  intros data filters r H. unfold applyFilters in H. apply filter_In in H as [Hin Hk].
  unfold keep in Hk. repeat rewrite andb_true_iff in Hk.
  destruct Hk as ((((((Hg & He) & Hf) & Hh) & Ha) & Hb) & Hm).
  split; [exact Hin|].
  split; [exact (category_ok_in _ _ Hg)|].
  split; [exact (category_ok_in _ _ He)|].
  split; [exact (category_ok_in _ _ Hf)|].
  split; [exact (category_ok_in _ _ Hh)|].
  split; [|split].
  - intros a Ea Ha0. unfold age_ok in Ha. rewrite Ea in Ha.
    destruct (ageRange filters) as [lo hi]. exact (range_ok_fin a lo hi Ha Ha0).
  - intros e Ee He0. unfold employment_ok in Hm. rewrite Ee in Hm.
    destruct (employmentRange filters) as [lo hi]. exact (range_ok_fin e lo hi Hm He0).
  - intro Hall. unfold income_bracket_ok in Hb.
    destruct (String.eqb (incomeBracket filters) "all") eqn:E.
    + apply String.eqb_eq in E. contradiction.
    + exact (option_bracket_eqb_eq _ _ Hb).
Qed.

Lemma applyFilters_sound_witness :
  let filters := mkFilter ["M"%string] [] [] [] (18, 80) "high"%string (0, 40) in
  let r := nth 0 sample_data sample_record1 in
  In r (applyFilters sample_data filters) /\
  In (CODE_GENDER r) (gender filters) /\ INCOME_BRACKET r = bracketMap (incomeBracket filters).
Proof.
  intros filters r.
  assert (H : In r (applyFilters sample_data filters)) by (vm_compute; left; reflexivity).
  destruct (applyFilters_sound sample_data filters r H) as (_ & Hg & _ & _ & _ & _ & _ & Hb).
  split; [exact H|]. split; [apply Hg; discriminate|apply Hb; discriminate].
Defined.
